(** * A skip list over an arena of nodes: model of [skiplist.py]

    The Python objects of [skiplist.py] are kept in an arena (a list of
    nodes addressed by index); a reference to a [_Node] is an index, and
    Python's [None] reference is [None].  Every method of [SkipList] is
    a function on the state record; a method that mutates returns the new
    state.  Exceptions are results of an error type.

    Keys are integers, levels and list indices are natural numbers, and
    the floats of [random.random() < self.p] are compared as rationals.
    The outcome of the randomness source is an argument of [insert]:
    [rnd n] is what the [n]-th call of [random.random()] returns.  The
    loops that follow forward references take as fuel the size of the
    arena, which bounds every walk of a well-formed list. *)

From Stdlib Require Import ZArith QArith Strings.String.
From stdpp Require Import numbers base tactics option list sorting.

Open Scope Z_scope.
Open Scope nat_scope.

(** ** Values, nodes and the list state *)

(** Python values stored in the list ([Any]): [None], integers, strings. *)
Inductive pyval :=
  | PyNone
  | PyInt (z : Z)
  | PyStr (s : string).

(** References to nodes are indices into the arena. *)
Abbreviation loc := nat (only parsing).

(** [_Node]: the header carries [key = None]; [forward] holds one
    reference per level of the node. *)
Record _Node := mkNode {
  key : option Z;
  value : pyval;
  forward : list (option loc)
}.

(** [_Node.__init__(level, key, value)] *)
Definition new_node (lvl : nat) (k : option Z) (v : pyval) : _Node :=
  mkNode k v (replicate (lvl + 1) None).

Record SkipList := mkSkipList {
  max_level : nat;
  p : Q;
  level : nat;
  header : loc;
  heap : list _Node
}.

(** [SkipList.__init__(max_level, p)] *)
Definition init (ml : nat) (prob : Q) : SkipList :=
  mkSkipList ml prob 0 0 [new_node ml None PyNone].

(** ** Results

    [KeyError], [IndexError], [TypeError] and [AttributeError] are the
    Python exceptions the code can raise.  [InvalidRef] is a reference
    outside the arena and [NoFuel] a walk longer than the arena (a cycle
    of forward links, on which the Python loop does not return). *)
Inductive exn :=
  | KeyError (k : Z)
  | IndexError
  | TypeError
  | AttributeError
  | InvalidRef
  | NoFuel.

Inductive result (A : Type) :=
  | Ok (a : A)
  | Raise (e : exn).
Arguments Ok {A} a.
Arguments Raise {A} e.

Definition bind {A B} (m : result A) (f : A → result B) : result B :=
  match m with
  | Ok a => f a
  | Raise e => Raise e
  end.

Notation "'do' x <- m ; f" := (bind m (fun x => f))
  (at level 10, x name, m at level 100, f at level 200).

(** [v is None] *)
Definition is_None (v : pyval) : bool :=
  match v with
  | PyNone => true
  | _ => false
  end.

(** ** Access to the arena *)

Definition get_node (h : list _Node) (x : loc) : result _Node :=
  match h !! x with
  | Some n => Ok n
  | None => Raise InvalidRef
  end.

(** [l[i]] *)
Definition list_get {A} (l : list A) (i : nat) : result A :=
  match l !! i with
  | Some a => Ok a
  | None => Raise IndexError
  end.

(** [l[i] = a] *)
Definition list_set {A} (l : list A) (i : nat) (a : A) : result (list A) :=
  if i <? length l then Ok (<[i := a]> l) else Raise IndexError.

(** [x.forward[i]] *)
Definition get_forward (h : list _Node) (x : loc) (i : nat) : result (option loc) :=
  do n <- get_node h x;
  list_get (forward n) i.

(** [x.forward[i] = y] *)
Definition set_forward (h : list _Node) (x : loc) (i : nat) (y : option loc)
  : result (list _Node) :=
  do n <- get_node h x;
  do f <- list_set (forward n) i y;
  Ok (<[x := mkNode (key n) (value n) f]> h).

(** [x.value = v] *)
Definition set_value (h : list _Node) (x : loc) (v : pyval) : result (list _Node) :=
  do n <- get_node h x;
  Ok (<[x := mkNode (key n) v (forward n)]> h).

(** [y.key < k]: comparing the header's [None] key raises [TypeError]. *)
Definition key_lt (h : list _Node) (y : loc) (k : Z) : result bool :=
  do n <- get_node h y;
  match key n with
  | Some ky => Ok (ky <? k)%Z
  | None => Raise TypeError
  end.

(** [update[i].forward[i]] *)
Definition update_forward (h : list _Node) (update : list (option loc)) (i : nat)
  : result (option loc) :=
  do u <- list_get update i;
  match u with
  | Some x => get_forward h x i
  | None => Raise AttributeError
  end.

(** ** Helpers *)

(** [random.random() < self.p], on rationals. *)
Definition Qltb (x y : Q) : bool :=
  (Qnum x * Zpos (Qden y) <? Qnum y * Zpos (Qden x))%Z.

(** [_random_level]: [rnd n] is the value of the [n]-th call of
    [random.random()]; the loop draws once per test, so the draw of the
    test at [lvl] is [rnd lvl].  [fuel] is [max_level - lvl]. *)
Fixpoint random_level_from (fuel ml : nat) (prob : Q) (rnd : nat → Q) (lvl : nat) : nat :=
  if Qltb (rnd lvl) prob && (lvl <? ml) then
    match fuel with
    | 0 => lvl
    | S fuel' => random_level_from fuel' ml prob rnd (S lvl)
    end
  else lvl.

Definition _random_level (s : SkipList) (rnd : nat → Q) : nat :=
  random_level_from (max_level s) (max_level s) (p s) rnd 0.

(** The inner [while x.forward[i] and x.forward[i].key < key] loop. *)
Fixpoint advance (fuel : nat) (h : list _Node) (k : Z) (i : nat) (x : loc) : result loc :=
  match fuel with
  | 0 => Raise NoFuel
  | S fuel' =>
      do nxt <- get_forward h x i;
      match nxt with
      | None => Ok x
      | Some y =>
          do b <- key_lt h y k;
          if b then advance fuel' h k i y else Ok x
      end
  end.

(** The [for i in range(self.level, -1, -1)] loop of [_find_updates]. *)
Fixpoint find_updates_from (h : list _Node) (k : Z) (i : nat) (x : loc)
    (update : list (option loc)) : result (list (option loc)) :=
  do x' <- advance (length h) h k i x;
  do update' <- list_set update i (Some x');
  match i with
  | 0 => Ok update'
  | S j => find_updates_from h k j x' update'
  end.

Definition _find_updates (s : SkipList) (k : Z) : result (list (option loc)) :=
  find_updates_from (heap s) k (level s) (header s)
    (replicate (max_level s + 1) None).

(** ** Operations *)

(** The descent of [search], which keeps no update array. *)
Fixpoint search_from (h : list _Node) (k : Z) (i : nat) (x : loc) : result loc :=
  do x' <- advance (length h) h k i x;
  match i with
  | 0 => Ok x'
  | S j => search_from h k j x'
  end.

(** [x and x.key == key] *)
Definition is_key (h : list _Node) (x : option loc) (k : Z) : result (option _Node) :=
  match x with
  | None => Ok None
  | Some y =>
      do n <- get_node h y;
      Ok (if decide (key n = Some k) then Some n else None)
  end.

Definition search (s : SkipList) (k : Z) : result pyval :=
  do x <- search_from (heap s) k (level s) (header s);
  do x0 <- get_forward (heap s) x 0;
  do m <- is_key (heap s) x0 k;
  match m with
  | Some n => Ok (value n)
  | None => Ok PyNone
  end.

(** [for i in range(self.level + 1, new_level + 1): update[i] = self.header] *)
Fixpoint fill_header (n i : nat) (update : list (option loc)) (hdr : loc)
    : result (list (option loc)) :=
  match n with
  | 0 => Ok update
  | S n' =>
      do update' <- list_set update i (Some hdr);
      fill_header n' (S i) update' hdr
  end.

(** [for i in range(new_level + 1)]: splice [x] in after [update[i]]. *)
Fixpoint splice (n i : nat) (h : list _Node) (update : list (option loc)) (x : loc)
    : result (list _Node) :=
  match n with
  | 0 => Ok h
  | S n' =>
      do nxt <- update_forward h update i;
      do h1 <- set_forward h x i nxt;
      do u <- list_get update i;
      match u with
      | None => Raise AttributeError
      | Some y =>
          do h2 <- set_forward h1 y i (Some x);
          splice n' (S i) h2 update x
      end
  end.

Definition insert (rnd : nat → Q) (s : SkipList) (k : Z) (v : pyval) : result SkipList :=
  do update <- _find_updates s k;
  do x <- update_forward (heap s) update 0;
  do m <- is_key (heap s) x k;
  match m, x with
  | Some _, Some y =>
      do h' <- set_value (heap s) y v;
      Ok (mkSkipList (max_level s) (p s) (level s) (header s) h')
  | _, _ =>
      let new_level := _random_level s rnd in
      do update' <-
        (if level s <? new_level
         then fill_header (new_level - level s) (level s + 1) update (header s)
         else Ok update);
      let level' := if level s <? new_level then new_level else level s in
      let x := length (heap s) in
      let h1 := heap s ++ [new_node new_level (Some k) v] in
      do h' <- splice (new_level + 1) 0 h1 update' x;
      Ok (mkSkipList (max_level s) (p s) level' (header s) h')
  end.

(** [for i in range(self.level + 1)]: unlink [x] where [update[i]] points at it. *)
Fixpoint unlink (n i : nat) (h : list _Node) (update : list (option loc)) (x : loc)
    : result (list _Node) :=
  match n with
  | 0 => Ok h
  | S n' =>
      do nxt <- update_forward h update i;
      do h' <-
        (if decide (nxt = Some x) then
           do xf <- get_forward h x i;
           do u <- list_get update i;
           match u with
           | None => Raise AttributeError
           | Some y => set_forward h y i xf
           end
         else Ok h);
      unlink n' (S i) h' update x
  end.

(** [while self.level > 0 and self.header.forward[self.level] is None] *)
Fixpoint shrink_level (h : list _Node) (hdr : loc) (lvl : nat) : result nat :=
  match lvl with
  | 0 => Ok 0
  | S lvl' =>
      do f <- get_forward h hdr lvl;
      match f with
      | None => shrink_level h hdr lvl'
      | Some _ => Ok lvl
      end
  end.

Definition delete (s : SkipList) (k : Z) : result (bool * SkipList) :=
  do update <- _find_updates s k;
  do x <- update_forward (heap s) update 0;
  do m <- is_key (heap s) x k;
  match m, x with
  | Some _, Some y =>
      do h' <- unlink (level s + 1) 0 (heap s) update y;
      do level' <- shrink_level h' (header s) (level s);
      Ok (true, mkSkipList (max_level s) (p s) level' (header s) h')
  | _, _ => Ok (false, s)
  end.

(** ** Niceties *)

Definition __contains__ (s : SkipList) (k : Z) : result bool :=
  do val <- search s k;
  Ok (negb (is_None val)).

Definition __setitem__ (rnd : nat → Q) (s : SkipList) (k : Z) (v : pyval) : result SkipList :=
  insert rnd s k v.

Definition __getitem__ (s : SkipList) (k : Z) : result pyval :=
  do val <- search s k;
  if is_None val then Raise (KeyError k) else Ok val.

Definition __delitem__ (s : SkipList) (k : Z) : result SkipList :=
  do r <- delete s k;
  if fst r then Ok (snd r) else Raise (KeyError k).

(** The [while x] loop of [__len__]. *)
Fixpoint count_from (fuel : nat) (h : list _Node) (x : option loc) (cnt : nat)
    : result nat :=
  match x with
  | None => Ok cnt
  | Some y =>
      match fuel with
      | 0 => Raise NoFuel
      | S fuel' =>
          do nxt <- get_forward h y 0;
          count_from fuel' h nxt (cnt + 1)
      end
  end.

Definition __len__ (s : SkipList) : result nat :=
  do x <- get_forward (heap s) (header s) 0;
  count_from (length (heap s)) (heap s) x 0.

(** The [while x] loop of [display], which collects the nodes it visits,
    at level [i] ([display] walks level 0 and prints key and value). *)
Fixpoint nodes_from (fuel : nat) (h : list _Node) (i : nat) (x : option loc)
    : result (list loc) :=
  match x with
  | None => Ok []
  | Some y =>
      match fuel with
      | 0 => Raise NoFuel
      | S fuel' =>
          do nxt <- get_forward h y i;
          do r <- nodes_from fuel' h i nxt;
          Ok (y :: r)
      end
  end.

(** The nodes reached by following [forward[i]] from the header. *)
Definition lane (s : SkipList) (i : nat) : result (list loc) :=
  do x <- get_forward (heap s) (header s) i;
  nodes_from (length (heap s)) (heap s) i x.


(** [display]: the [while x] loop appends [(x.key, x.value)] and moves to
    [x.forward[0]]; the result is the list that [display] prints. *)
Fixpoint display_from (fuel : nat) (h : list _Node) (x : option loc)
    (elems : list (option Z * pyval)) : result (list (option Z * pyval)) :=
  match x with
  | None => Ok elems
  | Some y =>
      match fuel with
      | 0 => Raise NoFuel
      | S fuel' =>
          do n <- get_node h y;
          do nxt <- list_get (forward n) 0;
          display_from fuel' h nxt (elems ++ [(key n, value n)])
      end
  end.

Definition display (s : SkipList) : result (list (option Z * pyval)) :=
  do x <- get_forward (heap s) (header s) 0;
  display_from (length (heap s)) (heap s) x [].

(** * Specification vocabulary *)

(** ** Views of the arena *)

(** Key and value of the node at [x]. *)
Definition key_of (h : list _Node) (x : loc) : option Z :=
  match h !! x with
  | Some n => key n
  | None => None
  end.

Definition val_of (h : list _Node) (x : loc) : pyval :=
  match h !! x with
  | Some n => value n
  | None => PyNone
  end.

(** Number of forward slots of [x] (0 outside the arena). *)
Definition ht (h : list _Node) (x : loc) : nat :=
  match h !! x with
  | Some n => length (forward n)
  | None => 0
  end.

(** [h'] holds the same nodes as [h], up to their forward references. *)
Definition keeps (h h' : list _Node) : Prop :=
  length h' = length h ∧
  ∀ y, key_of h' y = key_of h y ∧ val_of h' y = val_of h y ∧ ht h' y = ht h y.

(** [path h i x ys e]: following [forward[i]] from [x] visits exactly
    [ys], and the last node visited has [e] in its slot [i]. *)
Fixpoint path (h : list _Node) (i : nat) (x : loc) (ys : list loc) (e : option loc) : Prop :=
  match ys with
  | [] => get_forward h x i = Ok e
  | y :: r => get_forward h x i = Ok (Some y) ∧ path h i y r e
  end.

(** What the slot before the walk [B] holds: its first node, or [e]. *)
Definition entry (B : list loc) (e : option loc) : option loc :=
  match B with
  | [] => e
  | b :: _ => Some b
  end.

(** The walk [B] taken from its own first node. *)
Definition tailpath (h : list _Node) (i : nat) (B : list loc) (e : option loc) : Prop :=
  match B with
  | [] => True
  | b :: B' => path h i b B' e
  end.

(** Last node of the walk [x :: P]. *)
Fixpoint endp (x : loc) (P : list loc) : loc :=
  match P with
  | [] => x
  | y :: r => endp y r
  end.

(** The key of [y] is below, at least, above [k]. *)
Definition klt (h : list _Node) (k : Z) (y : loc) : Prop :=
  ∃ ky, key_of h y = Some ky ∧ (ky < k)%Z.

Definition kge (h : list _Node) (k : Z) (y : loc) : Prop :=
  ∃ ky, key_of h y = Some ky ∧ (k ≤ ky)%Z.

Definition kgt (h : list _Node) (k : Z) (y : loc) : Prop :=
  ∃ ky, key_of h y = Some ky ∧ (k < ky)%Z.

(** Nodes of [ls] that have a slot at level [i]. *)
Definition lane_of (h : list _Node) (i : nat) (ls : list loc) : list loc :=
  filter (λ x, i < ht h x) ls.

(** The key of a chain node as an integer. *)
Definition kz (h : list _Node) (x : loc) : Z := default 0%Z (key_of h x).

(** [Inv s ls]: [ls] is the level-0 chain of [s], in order. *)
Record Inv (s : SkipList) (ls : list loc) : Prop := mkInv {
  inv_header : ht (heap s) (header s) = max_level s + 1;
  inv_level : level s ≤ max_level s;
  inv_nodup : NoDup (header s :: ls);
  inv_nodes :
    Forall (λ x, is_Some (key_of (heap s) x) ∧ 1 ≤ ht (heap s) x ≤ level s + 1) ls;
  inv_sorted : StronglySorted (λ a b, (kz (heap s) a < kz (heap s) b)%Z) ls;
  inv_lanes :
    ∀ i, i ≤ max_level s →
      path (heap s) i (header s) (lane_of (heap s) i ls) None;
  inv_top : level s = 0 ∨ ∃ x, x ∈ ls ∧ level s < ht (heap s) x
}.

(** A well-formed state: some chain satisfies the invariant. *)
Definition wf (s : SkipList) : Prop := ∃ ls, Inv s ls.

(** What [search] returns, in terms of the chain split at [k]. *)
Definition found (h : list _Node) (R : list loc) (k : Z) : pyval :=
  match R with
  | [] => PyNone
  | y :: _ => if decide (key_of h y = Some k) then val_of h y else PyNone
  end.

(** States built from an empty list by [insert] and [delete] calls; each
    [insert] may see any outcome [rnd] of the randomness source. *)
Inductive reachable : SkipList → Prop :=
  | reach_init ml prob : reachable (init ml prob)
  | reach_insert s rnd k v s' :
      reachable s → insert rnd s k v = Ok s' → reachable s'
  | reach_delete s k b s' :
      reachable s → delete s k = Ok (b, s') → reachable s'.

(** [k] is stored with value [v]: a node of the level-0 chain holds them. *)
Definition stored (s : SkipList) (k : Z) (v : pyval) : Prop :=
  ∃ ns x, lane s 0 = Ok ns ∧ x ∈ ns ∧
    key_of (heap s) x = Some k ∧ val_of (heap s) x = v.

(** [k] is present: it is stored with some value. *)
Definition present (s : SkipList) (k : Z) : Prop := ∃ v, stored s k v.

(** ** Demonstration states *)

(** Outcomes of the randomness source whose first [n] draws fall below
    [p] (for [p = 1/2]), so that the level drawn is [n]. *)
Definition draws (n : nat) : nat → Q := λ i, if i <? n then 0%Q else 1%Q.

(** [insert] with level [n] drawn, on the result of earlier calls. *)
Definition demo_insert (n : nat) (k : Z) (v : pyval) (r : result SkipList)
    : result SkipList :=
  do s <- r; insert (draws n) s k v.

Definition unwrap (r : result SkipList) : SkipList :=
  match r with
  | Ok s => s
  | Raise _ => init 0 0
  end.

(** The list after [insert(20, ..)], [insert(5, ..)], [insert(15, ..)]
    with levels 1, 2 and 0 drawn. *)
Definition demo1 : SkipList :=
  Eval vm_compute in
    unwrap (demo_insert 1 20 (PyStr "val_20") (Ok (init 3 (1 # 2)))).

Definition demo2 : SkipList :=
  Eval vm_compute in unwrap (demo_insert 2 5 (PyStr "val_5") (Ok demo1)).

Definition demo3 : SkipList :=
  Eval vm_compute in unwrap (demo_insert 0 15 (PyStr "val_15") (Ok demo2)).

(** The same three pairs inserted in another order, with levels 1, 0
    and 0 drawn. *)
Definition demo1b : SkipList :=
  Eval vm_compute in
    unwrap (demo_insert 1 15 (PyStr "val_15") (Ok (init 3 (1 # 2)))).

Definition demo2b : SkipList :=
  Eval vm_compute in unwrap (demo_insert 0 20 (PyStr "val_20") (Ok demo1b)).

Definition demo3b : SkipList :=
  Eval vm_compute in unwrap (demo_insert 0 5 (PyStr "val_5") (Ok demo2b)).

(** The list after [insert(1, None)] on an empty list. *)
Definition none_state : SkipList :=
  Eval vm_compute in unwrap (insert (draws 0) (init 3 (1 # 2)) 1 PyNone).

(** The predecessor at level [j] of the keys that follow the chain
    prefix [L]: the last node of [L] with a slot at level [j], or the
    header. *)
Definition pred_at (s : SkipList) (L : list loc) (j : nat) : loc :=
  endp (header s) (lane_of (heap s) j L).

(** ** Contents of a list *)

(** The key and value pairs held by the nodes [ls], in order. *)
Definition items (h : list _Node) (ls : list loc) : list (option Z * pyval) :=
  (λ x, (key_of h x, val_of h x)) <$> ls.

(** Lookup of [k] in a list of pairs: the value of the first pair with
    key [k], or [None]. *)
Fixpoint assoc (k : Z) (elems : list (option Z * pyval)) : pyval :=
  match elems with
  | [] => PyNone
  | e :: r => if decide (e.1 = Some k) then e.2 else assoc k r
  end.

(** The keys of [elems] are all below (above) [k]. *)
Definition keys_below (k : Z) (elems : list (option Z * pyval)) : Prop :=
  Forall (λ e, ∃ k', e.1 = Some k' ∧ (k' < k)%Z) elems.

Definition keys_above (k : Z) (elems : list (option Z * pyval)) : Prop :=
  Forall (λ e, ∃ k', e.1 = Some k' ∧ (k < k')%Z) elems.

(** No exception of [r] is a [KeyError]. *)
Definition no_KeyError {A} (r : result A) : Prop :=
  ∀ k, r ≠ Raise (KeyError k).

(** * Verification *)

(** ** The result monad *)

Lemma bind_Ok {A B} (m : result A) (f : A → result B) b :
  bind m f = Ok b ↔ ∃ a, m = Ok a ∧ f a = Ok b.
Proof.
  destruct m as [a|e]; simpl; split.
  - eauto.
  - by intros (a' & [= ->] & ?).
  - done.
  - by intros (a' & ? & ?).
Qed.

(** ** Views of the arena *)

Lemma keeps_refl h : keeps h h.
Proof. by split. Qed.

Lemma keeps_trans h1 h2 h3 : keeps h1 h2 → keeps h2 h3 → keeps h1 h3.
Proof.
  intros [Hl1 H1] [Hl2 H2]. split; [congruence|].
  intros y. destruct (H1 y) as (?&?&?), (H2 y) as (?&?&?).
  repeat split; congruence.
Qed.

Lemma ht_lt_length h x : 0 < ht h x → x < length h.
Proof.
  unfold ht. destruct (h !! x) eqn:E; [|lia].
  intros _. by eapply lookup_lt_Some.
Qed.

Lemma get_forward_Ok h x i r : get_forward h x i = Ok r → i < ht h x.
Proof.
  unfold get_forward, get_node, list_get, ht.
  destruct (h !! x) as [n|]; simpl; [|done].
  destruct (forward n !! i) eqn:E; [|done].
  intros _. by eapply lookup_lt_Some.
Qed.

Lemma get_forward_is_Ok h x i : i < ht h x → ∃ r, get_forward h x i = Ok r.
Proof.
  unfold get_forward, get_node, list_get, ht.
  destruct (h !! x) as [n|]; simpl; [|lia].
  intros Hi. destruct (lookup_lt_is_Some_2 (forward n) i Hi) as [r ->]. eauto.
Qed.

Lemma set_forward_spec h x i v :
  i < ht h x →
  ∃ h', set_forward h x i v = Ok h' ∧ keeps h h' ∧
    ∀ y j, get_forward h' y j =
      if decide (y = x ∧ j = i) then Ok v else get_forward h y j.
Proof.
  unfold set_forward, get_node, list_set, ht.
  destruct (h !! x) as [n|] eqn:Hx; simpl; [|lia].
  intros Hi. apply Nat.ltb_lt in Hi as Hi'. rewrite Hi'. simpl.
  eexists. split; [done|].
  assert (Hxl : x < length h) by by eapply lookup_lt_Some.
  split.
  - split; [by rewrite length_insert|].
    intros y. unfold key_of, val_of, ht.
    destruct (decide (y = x)) as [->|Hne].
    + rewrite list_lookup_insert_eq by done. rewrite Hx. simpl.
      by rewrite length_insert.
    + by rewrite list_lookup_insert_ne.
  - intros y j. unfold get_forward, get_node, list_get.
    destruct (decide (y = x)) as [->|Hne].
    + rewrite list_lookup_insert_eq by done. rewrite Hx. simpl.
      case_decide as Hd.
      * destruct Hd as [_ ->]. by rewrite list_lookup_insert_eq.
      * rewrite list_lookup_insert_ne; [done|]. intros ->. by apply Hd.
    + rewrite list_lookup_insert_ne by done.
      case_decide as Hd; [by destruct Hd|done].
Qed.

Lemma set_value_spec h x v :
  0 < ht h x →
  ∃ n, h !! x = Some n ∧
    set_value h x v = Ok (<[x := mkNode (key n) v (forward n)]> h).
Proof.
  unfold set_value, get_node, ht.
  destruct (h !! x) as [n|] eqn:Hx; simpl; [|lia]. eauto.
Qed.

Lemma insert_value_views h x n v :
  h !! x = Some n →
  let h' := <[x := mkNode (key n) v (forward n)]> h in
  length h' = length h ∧
  (∀ y, key_of h' y = key_of h y ∧ ht h' y = ht h y) ∧
  (∀ y j, get_forward h' y j = get_forward h y j) ∧
  val_of h' x = v ∧
  (∀ y, y ≠ x → h' !! y = h !! y).
Proof.
  intros Hx h'. subst h'.
  assert (Hxl : x < length h) by by eapply lookup_lt_Some.
  split; [by rewrite length_insert|].
  split; [|split; [|split]].
  - intros y. unfold key_of, ht. destruct (decide (y = x)) as [->|Hne].
    + rewrite list_lookup_insert_eq by done. by rewrite Hx.
    + by rewrite list_lookup_insert_ne.
  - intros y j. unfold get_forward, get_node.
    destruct (decide (y = x)) as [->|Hne].
    + rewrite list_lookup_insert_eq by done. by rewrite Hx.
    + by rewrite list_lookup_insert_ne.
  - unfold val_of. by rewrite list_lookup_insert_eq.
  - intros y Hne. by rewrite list_lookup_insert_ne.
Qed.

(** ** Chains of forward references *)

Lemma endp_app x P Q : endp x (P ++ Q) = endp (endp x P) Q.
Proof. revert x. induction P as [|y P IH]; intros x; simpl; [done|apply IH]. Qed.

Lemma endp_in x P : endp x P ∈ x :: P.
Proof.
  revert x. induction P as [|y P IH]; intros x; simpl.
  - apply list_elem_of_here.
  - apply list_elem_of_further, IH.
Qed.

Lemma path_entry h i x B e :
  path h i x B e ↔ get_forward h x i = Ok (entry B e) ∧ tailpath h i B e.
Proof. destruct B; simpl; tauto. Qed.

Lemma path_app h i x A B e :
  path h i x (A ++ B) e ↔ path h i x A (entry B e) ∧ tailpath h i B e.
Proof.
  revert x. induction A as [|a A IH]; intros x; simpl.
  - apply path_entry.
  - rewrite IH. tauto.
Qed.

Lemma path_end h i x A e : path h i x A e → get_forward h (endp x A) i = Ok e.
Proof.
  revert x. induction A as [|a A IH]; intros x; simpl; [done|].
  intros [_ H]. by apply IH.
Qed.

Lemma path_ext_from h h' i x x' A e :
  get_forward h' x' i = get_forward h x i →
  (∀ y, y ∈ A → get_forward h' y i = get_forward h y i) →
  path h i x A e → path h' i x' A e.
Proof.
  revert x x'. induction A as [|a A IH]; intros x x' Hx HA; simpl.
  - by rewrite Hx.
  - intros [H1 H2]. split; [by rewrite Hx|].
    apply (IH a a); [|intros y Hy|done].
    + apply HA, list_elem_of_here.
    + by apply HA, list_elem_of_further.
Qed.

Lemma path_ext h h' i x A e :
  (∀ y, y ∈ x :: A → get_forward h' y i = get_forward h y i) →
  path h i x A e → path h' i x A e.
Proof.
  intros H. apply path_ext_from.
  - apply H, list_elem_of_here.
  - intros y Hy. by apply H, list_elem_of_further.
Qed.

Lemma tailpath_ext h h' i B e :
  (∀ y, y ∈ B → get_forward h' y i = get_forward h y i) →
  tailpath h i B e → tailpath h' i B e.
Proof. destruct B as [|b B]; simpl; [done|]. apply path_ext. Qed.

(** Overwriting slot [i] of the last node of a walk redirects its end. *)
Lemma path_redirect h h' i x A e e' :
  NoDup (x :: A) →
  (∀ y, y ∈ x :: A → y ≠ endp x A → get_forward h' y i = get_forward h y i) →
  get_forward h' (endp x A) i = Ok e' →
  path h i x A e → path h' i x A e'.
Proof.
  revert x. induction A as [|a A IH]; intros x Hnd Hsame Hend; simpl in *.
  - done.
  - intros [H1 H2]. split.
    + rewrite Hsame; [done|apply list_elem_of_here|].
      intros Heq. apply NoDup_cons in Hnd as [Hx _]. apply Hx.
      rewrite Heq. apply endp_in.
    + apply IH; [by apply NoDup_cons in Hnd as [_ ?]| |done|done].
      intros y Hy Hne. apply Hsame; [by apply list_elem_of_further|done].
Qed.

(** A walk can be resumed from any node it visits. *)
Lemma path_resume h i x A B e y :
  path h i x (A ++ B) e → y ∈ x :: A →
  ∃ A1 A2, A = A1 ++ A2 ∧ path h i y (A2 ++ B) e ∧ endp y A2 = endp x A.
Proof.
  intros Hp Hy. apply elem_of_cons in Hy as [->|Hy].
  - by exists [], A.
  - apply list_elem_of_split in Hy as (A1 & A2 & ->).
    exists (A1 ++ [y]), A2. rewrite <-!app_assoc in *. split; [done|].
    apply path_app in Hp as [_ Hp]. simpl in Hp. split; [done|].
    by rewrite endp_app.
Qed.

(** ** The scan *)

Lemma key_lt_klt h k y : klt h k y → key_lt h y k = Ok true.
Proof.
  intros (ky & Hk & Hlt). unfold key_lt, get_node, key_of in *.
  destruct (h !! y) as [n|]; simpl in *; [|done]. rewrite Hk.
  f_equal. by apply Z.ltb_lt.
Qed.

Lemma key_lt_kge h k y : kge h k y → key_lt h y k = Ok false.
Proof.
  intros (ky & Hk & Hlt). unfold key_lt, get_node, key_of in *.
  destruct (h !! y) as [n|]; simpl in *; [|done]. rewrite Hk.
  f_equal. by apply Z.ltb_ge.
Qed.

Lemma advance_spec h k i P Q : ∀ fuel x,
  path h i x (P ++ Q) None → Forall (klt h k) P → Forall (kge h k) Q →
  length P < fuel →
  advance fuel h k i x = Ok (endp x P).
Proof.
  induction P as [|y P IH]; intros fuel x Hp HP HQ Hfuel;
    (destruct fuel as [|fuel]; [simpl in Hfuel; lia|]); simpl in *.
  - destruct Q as [|q Q]; simpl in Hp.
    + by rewrite Hp.
    + destruct Hp as [-> _]. simpl.
      apply Forall_cons in HQ as [Hq _]. by rewrite (key_lt_kge _ _ _ Hq).
  - destruct Hp as [-> Hp]. simpl.
    apply Forall_cons in HP as [Hy HP]. rewrite (key_lt_klt _ _ _ Hy). simpl.
    apply IH; [done..|lia].
Qed.

(** ** The representation invariant *)

Lemma lane_of_app h i A B : lane_of h i (A ++ B) = lane_of h i A ++ lane_of h i B.
Proof. apply filter_app. Qed.

Lemma lane_of_elem h i ls x : x ∈ lane_of h i ls ↔ i < ht h x ∧ x ∈ ls.
Proof. apply (list_elem_of_filter (λ y, i < ht h y)). Qed.

Lemma lane_of_mono h i ls x : x ∈ lane_of h (S i) ls → x ∈ lane_of h i ls.
Proof. rewrite !lane_of_elem. intros [? ?]. split; [lia|done]. Qed.

Lemma lane_of_le h i j ls x : i ≤ j → x ∈ lane_of h j ls → x ∈ lane_of h i ls.
Proof. rewrite !lane_of_elem. intros ? [? ?]. split; [lia|done]. Qed.

Lemma lane_of_all h ls : Forall (λ x, 1 ≤ ht h x) ls → lane_of h 0 ls = ls.
Proof.
  induction 1 as [|x ls Hx _ IH]; [done|].
  unfold lane_of in *. rewrite filter_cons_True by lia. by rewrite IH.
Qed.

Lemma lane_of_none h i ls : Forall (λ x, ht h x ≤ i) ls → lane_of h i ls = [].
Proof.
  induction 1 as [|x ls Hx _ IH]; [done|].
  unfold lane_of in *. rewrite filter_cons_False by lia. by rewrite IH.
Qed.

Lemma lane_of_ext h h' i ls :
  (∀ x, x ∈ ls → ht h' x = ht h x) → lane_of h' i ls = lane_of h i ls.
Proof.
  induction ls as [|x ls IH]; intros H; [done|].
  unfold lane_of in *. rewrite !filter_cons.
  rewrite (H x) by apply list_elem_of_here.
  rewrite IH; [done|]. intros y Hy. by apply H, list_elem_of_further.
Qed.

Lemma lane_of_length h i ls : length (lane_of h i ls) ≤ length ls.
Proof. apply length_filter. Qed.

(** Every sorted chain splits at a key. *)
Lemma split_at_key h k ls :
  Forall (λ x, is_Some (key_of h x)) ls →
  StronglySorted (λ a b, (kz h a < kz h b)%Z) ls →
  ∃ L R, ls = L ++ R ∧ Forall (klt h k) L ∧ Forall (kge h k) R.
Proof.
  induction ls as [|a ls IH]; intros Hk Hs.
  - by exists [], [].
  - apply Forall_cons in Hk as [[ka Ha] Hk].
    apply StronglySorted_cons in Hs as [Hlt Hs].
    destruct (decide (ka < k)%Z) as [Hak|Hak].
    + destruct (IH Hk Hs) as (L & R & -> & HL & HR).
      exists (a :: L), R. split; [done|]. split; [|done].
      apply Forall_cons. split; [by exists ka|done].
    + exists [], (a :: ls). split; [done|]. split; [done|].
      apply Forall_cons. split; [exists ka; split; [done|lia]|].
      rewrite Forall_forall in Hlt, Hk. apply Forall_forall. intros y Hy.
      destruct (Hk y Hy) as [ky Hky]. exists ky. split; [done|].
      specialize (Hlt y Hy). unfold kz in Hlt. rewrite Ha, Hky in Hlt.
      simpl in Hlt. lia.
Qed.

Lemma Inv_in_heap s ls x : Inv s ls → x ∈ header s :: ls → x < length (heap s).
Proof.
  intros HI Hx. apply ht_lt_length. apply elem_of_cons in Hx as [->|Hx].
  - rewrite (inv_header _ _ HI). lia.
  - pose proof (inv_nodes _ _ HI) as Hn. rewrite Forall_forall in Hn.
    destruct (Hn x Hx) as [_ ?]. lia.
Qed.

Lemma Inv_length s ls : Inv s ls → length ls < length (heap s).
Proof.
  intros HI.
  assert (length (header s :: ls) ≤ length (seq 0 (length (heap s)))) as Hle.
  { apply submseteq_length, NoDup_submseteq; [apply (inv_nodup _ _ HI)|].
    intros x Hx. apply elem_of_seq. pose proof (Inv_in_heap _ _ _ HI Hx). lia. }
  rewrite length_seq in Hle. simpl in Hle. lia.
Qed.

Lemma Inv_split s ls k :
  Inv s ls →
  ∃ L R, ls = L ++ R ∧ Forall (klt (heap s) k) L ∧ Forall (kge (heap s) k) R.
Proof.
  intros HI. apply split_at_key; [|apply (inv_sorted _ _ HI)].
  eapply Forall_impl; [apply (inv_nodes _ _ HI)|]. by intros x [? _].
Qed.

Section scan.
Context (s : SkipList) (L R : list loc) (k : Z).
Hypothesis HI : Inv s (L ++ R).
Hypothesis HL : Forall (klt (heap s) k) L.
Hypothesis HR : Forall (kge (heap s) k) R.

Lemma pred_at_in j : pred_at s L j ∈ header s :: lane_of (heap s) j L.
Proof. apply endp_in. Qed.

Lemma lane_klt j : Forall (klt (heap s) k) (lane_of (heap s) j L).
Proof.
  apply Forall_forall. intros y Hy. apply lane_of_elem in Hy as [_ Hy].
  rewrite Forall_forall in HL. by apply HL.
Qed.

Lemma lane_kge j : Forall (kge (heap s) k) (lane_of (heap s) j R).
Proof.
  apply Forall_forall. intros y Hy. apply lane_of_elem in Hy as [_ Hy].
  rewrite Forall_forall in HR. by apply HR.
Qed.

Lemma lane_path j :
  j ≤ max_level s →
  path (heap s) j (header s) (lane_of (heap s) j L ++ lane_of (heap s) j R) None.
Proof. intros Hj. rewrite <-lane_of_app. by apply (inv_lanes _ _ HI). Qed.

(** One level of the descent ends at that level's predecessor. *)
Lemma advance_level j x :
  j ≤ max_level s → x ∈ header s :: lane_of (heap s) j L →
  advance (length (heap s)) (heap s) k j x = Ok (pred_at s L j).
Proof.
  intros Hj Hx.
  destruct (path_resume _ _ _ _ _ _ _ (lane_path j Hj) Hx)
    as (A1 & A2 & HA & Hp & Hend).
  unfold pred_at. rewrite <-Hend.
  pose proof (lane_klt j) as Hk. rewrite HA in Hk.
  apply Forall_app in Hk as [_ Hk].
  apply advance_spec with (Q := lane_of (heap s) j R); [done..|apply lane_kge|].
  pose proof (Inv_length _ _ HI) as Hlen. rewrite length_app in Hlen.
  pose proof (lane_of_length (heap s) j L) as Hlen'.
  rewrite HA, length_app in Hlen'. lia.
Qed.

Lemma pred_at_step j : pred_at s L (S j) ∈ header s :: lane_of (heap s) j L.
Proof.
  pose proof (pred_at_in (S j)) as H. apply elem_of_cons in H as [->|H].
  - apply list_elem_of_here.
  - by apply list_elem_of_further, lane_of_mono.
Qed.

Lemma search_from_spec : ∀ i x,
  i ≤ max_level s → x ∈ header s :: lane_of (heap s) i L →
  search_from (heap s) k i x = Ok (pred_at s L 0).
Proof.
  induction i as [|i IH]; intros x Hi Hx; simpl;
    rewrite (advance_level _ _ Hi Hx); simpl; [done|].
  apply IH; [lia|apply pred_at_step].
Qed.

Lemma find_updates_from_spec : ∀ i x upd,
  i ≤ max_level s → i < length upd → x ∈ header s :: lane_of (heap s) i L →
  ∃ upd', find_updates_from (heap s) k i x upd = Ok upd' ∧
    length upd' = length upd ∧
    ∀ j, upd' !! j = if decide (j ≤ i) then Some (Some (pred_at s L j)) else upd !! j.
Proof.
  induction i as [|i IH]; intros x upd Hi Hlen Hx; simpl;
    rewrite (advance_level _ _ Hi Hx); simpl; unfold list_set;
    apply Nat.ltb_lt in Hlen as Hlen'; rewrite Hlen'; simpl.
  - eexists. split; [done|]. split; [by rewrite length_insert|].
    intros j. case_decide as Hj.
    + assert (j = 0) as -> by lia. by rewrite list_lookup_insert_eq.
    + rewrite list_lookup_insert_ne; [done|lia].
  - destruct (IH (pred_at s L (S i)) (<[S i:=Some (pred_at s L (S i))]> upd))
      as (upd' & -> & Hl & Hupd);
      [lia|rewrite length_insert; lia|apply pred_at_step|].
    eexists. split; [done|]. split; [by rewrite Hl, length_insert|].
    intros j. rewrite Hupd. repeat case_decide; try lia; try done.
    + assert (j = S i) as -> by lia. by rewrite list_lookup_insert_eq.
    + rewrite list_lookup_insert_ne; [done|lia].
Qed.

Lemma find_updates_spec :
  ∃ upd, _find_updates s k = Ok upd ∧ length upd = max_level s + 1 ∧
    ∀ j, j ≤ level s → upd !! j = Some (Some (pred_at s L j)).
Proof.
  pose proof (inv_level _ _ HI) as Hlv.
  destruct (find_updates_from_spec (level s) (header s)
              (replicate (max_level s + 1) None))
    as (upd & Hf & Hl & Hupd);
    [done|rewrite length_replicate; lia|apply list_elem_of_here|].
  exists upd. split; [done|]. split; [by rewrite Hl, length_replicate|].
  intros j Hj. rewrite Hupd. by rewrite decide_True.
Qed.

Lemma pred_at_next j :
  j ≤ max_level s →
  get_forward (heap s) (pred_at s L j) j = Ok (entry (lane_of (heap s) j R) None).
Proof.
  intros Hj. pose proof (lane_path j Hj) as Hp.
  apply path_app in Hp as [Hp _]. by apply path_end in Hp.
Qed.

Lemma Inv_heights x : x ∈ L ++ R → 1 ≤ ht (heap s) x ≤ level s + 1.
Proof.
  intros Hx. pose proof (inv_nodes _ _ HI) as Hn.
  rewrite Forall_forall in Hn. by destruct (Hn x Hx).
Qed.

Lemma lane_above j A :
  level s < j → (∀ x, x ∈ A → x ∈ L ++ R) → lane_of (heap s) j A = [].
Proof.
  intros Hj HA. apply lane_of_none, Forall_forall. intros x Hx.
  pose proof (Inv_heights x (HA x Hx)). lia.
Qed.

Lemma lane_zero A : (∀ x, x ∈ A → x ∈ L ++ R) → lane_of (heap s) 0 A = A.
Proof.
  intros HA. apply lane_of_all, Forall_forall. intros x Hx.
  pose proof (Inv_heights x (HA x Hx)). lia.
Qed.

Lemma pred_at_above j : level s < j → pred_at s L j = header s.
Proof.
  intros Hj. unfold pred_at. rewrite lane_above; [done..|].
  intros x Hx. apply elem_of_app. by left.
Qed.

(** The node after the level-0 predecessor is the first node of [R]. *)
Lemma pred_at_0_next :
  get_forward (heap s) (pred_at s L 0) 0 = Ok (entry R None).
Proof.
  rewrite pred_at_next by lia. rewrite lane_zero; [done|].
  intros x Hx. apply elem_of_app. by right.
Qed.
End scan.

(** ** Search *)

Lemma kgt_kge h k y : kgt h k y → kge h k y.
Proof. intros (ky & ? & ?). exists ky. split; [done|lia]. Qed.

Lemma is_key_in h y k :
  0 < ht h y →
  ∃ n, h !! y = Some n ∧
    is_key h (Some y) k = Ok (if decide (key_of h y = Some k) then Some n else None).
Proof.
  unfold ht, is_key, get_node, key_of.
  destruct (h !! y) as [n|]; simpl; [|lia]. eauto.
Qed.

Lemma search_spec s L R k :
  Inv s (L ++ R) → Forall (klt (heap s) k) L → Forall (kge (heap s) k) R →
  search s k = Ok (found (heap s) R k).
Proof.
  intros HI HL HR. unfold search.
  rewrite (search_from_spec s L R k HI HL HR);
    [|apply (inv_level _ _ HI)|apply list_elem_of_here].
  cbn [bind]. rewrite (pred_at_0_next s L R HI). cbn [bind].
  destruct R as [|y R]; cbn [entry]; [done|].
  destruct (is_key_in (heap s) y k) as (n & Hn & ->).
  { assert (y ∈ L ++ y :: R) as Hin
      by (apply elem_of_app; right; apply list_elem_of_here).
    pose proof (Inv_heights s L (y :: R) HI y Hin). lia. }
  simpl. unfold val_of. rewrite Hn. by case_decide.
Qed.

Lemma Inv_around s L y R k :
  Inv s (L ++ y :: R) → key_of (heap s) y = Some k →
  Forall (klt (heap s) k) L ∧ Forall (kgt (heap s) k) R.
Proof.
  intros HI Hy. pose proof (inv_sorted _ _ HI) as Hs.
  pose proof (inv_nodes _ _ HI) as Hn. rewrite Forall_forall in Hn.
  apply StronglySorted_app in Hs as (Hlr & _ & Hs).
  apply StronglySorted_cons in Hs as [Hr _]. rewrite Forall_forall in Hr.
  split; apply Forall_forall; intros z Hz.
  - destruct (Hn z) as [[kz' Hkz] _]; [apply elem_of_app; by left|].
    exists kz'. split; [done|].
    specialize (Hlr z y Hz (list_elem_of_here _ _)).
    unfold kz in Hlr. rewrite Hkz, Hy in Hlr. done.
  - destruct (Hn z) as [[kz' Hkz] _];
      [apply elem_of_app; right; by apply list_elem_of_further|].
    exists kz'. split; [done|].
    specialize (Hr z Hz). unfold kz in Hr. rewrite Hkz, Hy in Hr. done.
Qed.

Lemma search_hit s L y R k :
  Inv s (L ++ y :: R) → key_of (heap s) y = Some k →
  search s k = Ok (val_of (heap s) y).
Proof.
  intros HI Hy. destruct (Inv_around _ _ _ _ _ HI Hy) as [HL HR].
  rewrite (search_spec s L (y :: R) k HI HL).
  - simpl. by rewrite decide_True.
  - apply Forall_cons. split; [exists k; split; [done|lia]|].
    eapply Forall_impl; [done|]. apply kgt_kge.
Qed.

Lemma search_miss s L R k :
  Inv s (L ++ R) → Forall (klt (heap s) k) L → Forall (kgt (heap s) k) R →
  search s k = Ok PyNone.
Proof.
  intros HI HL HR. rewrite (search_spec s L R k HI HL).
  - destruct R as [|y R]; simpl; [done|].
    apply Forall_cons in HR as [(ky & Hky & Hlt) _].
    rewrite decide_False; [done|]. rewrite Hky. intros [= ->]. lia.
  - eapply Forall_impl; [done|]. apply kgt_kge.
Qed.

(** ** Traversal of a level *)

Lemma nodes_from_spec h i B : ∀ fuel,
  tailpath h i B None → length B ≤ fuel →
  nodes_from fuel h i (entry B None) = Ok B.
Proof.
  induction B as [|b B IH]; intros fuel Hp Hfuel; [by destruct fuel|].
  destruct fuel as [|fuel]; [simpl in Hfuel; lia|].
  simpl in Hp. apply path_entry in Hp as [Hb Hp].
  cbn [nodes_from entry]. rewrite Hb. cbn [bind].
  rewrite IH; [done..|simpl in Hfuel; lia].
Qed.

Lemma lane_spec s ls i :
  Inv s ls → i ≤ max_level s → lane s i = Ok (lane_of (heap s) i ls).
Proof.
  intros HI Hi. unfold lane.
  pose proof (inv_lanes _ _ HI i Hi) as Hp. apply path_entry in Hp as [-> Hp].
  cbn [bind]. apply nodes_from_spec; [done|].
  pose proof (Inv_length _ _ HI). pose proof (lane_of_length (heap s) i ls). lia.
Qed.

Lemma lane_0_spec s ls : Inv s ls → lane s 0 = Ok ls.
Proof.
  intros HI. rewrite (lane_spec s ls 0 HI) by lia. f_equal.
  apply lane_of_all. eapply Forall_impl; [apply (inv_nodes _ _ HI)|].
  intros x [_ ?]. simpl in *. lia.
Qed.

Lemma count_from_spec h B : ∀ fuel cnt,
  tailpath h 0 B None → length B ≤ fuel →
  count_from fuel h (entry B None) cnt = Ok (cnt + length B).
Proof.
  induction B as [|b B IH]; intros fuel cnt Hp Hfuel.
  - destruct fuel; simpl; f_equal; lia.
  - destruct fuel as [|fuel]; [simpl in Hfuel; lia|].
    simpl in Hp. apply path_entry in Hp as [Hb Hp].
    cbn [count_from entry]. rewrite Hb. cbn [bind].
    rewrite IH; [|done|simpl in Hfuel; lia]. f_equal. simpl. lia.
Qed.

Lemma len_spec s ls : Inv s ls → __len__ s = Ok (length ls).
Proof.
  intros HI. unfold __len__.
  pose proof (inv_lanes _ _ HI 0) as Hp. rewrite lane_of_all in Hp.
  - apply path_entry in Hp as [-> Hp]; [|lia]. cbn [bind].
    rewrite count_from_spec; [done..|]. pose proof (Inv_length _ _ HI). lia.
  - eapply Forall_impl; [apply (inv_nodes _ _ HI)|].
    intros x [_ ?]. simpl in *. lia.
Qed.

(** The chain of a state is unique. *)
Lemma Inv_unique s ls ls' : Inv s ls → Inv s ls' → ls = ls'.
Proof.
  intros H1 H2. apply lane_0_spec in H1, H2. congruence.
Qed.

(** ** The invariant only reads keys, heights and forward slots *)

Lemma StronglySorted_impl {A} (R R' : relation A) (l : list A) :
  (∀ a b, a ∈ l → b ∈ l → R a b → R' a b) →
  StronglySorted R l → StronglySorted R' l.
Proof.
  induction l as [|x l IH]; intros HR Hs; [constructor|].
  apply StronglySorted_cons in Hs as [Hx Hs]. apply StronglySorted_cons. split.
  - rewrite Forall_forall in Hx. apply Forall_forall. intros y Hy.
    apply HR; [apply list_elem_of_here|by apply list_elem_of_further|by apply Hx].
  - apply IH; [|done]. intros a b Ha Hb.
    apply HR; by apply list_elem_of_further.
Qed.

Lemma Inv_transfer s s' ls :
  Inv s ls →
  max_level s' = max_level s → level s' = level s → header s' = header s →
  (∀ y, key_of (heap s') y = key_of (heap s) y ∧ ht (heap s') y = ht (heap s) y) →
  (∀ y j, get_forward (heap s') y j = get_forward (heap s) y j) →
  Inv s' ls.
Proof.
  intros HI Hml Hlv Hhd Hv Hf.
  assert (Hht : ∀ y, ht (heap s') y = ht (heap s) y) by (intros y; apply Hv).
  assert (Hk : ∀ y, key_of (heap s') y = key_of (heap s) y) by (intros y; apply Hv).
  split.
  - rewrite Hhd, Hht, Hml. apply (inv_header _ _ HI).
  - rewrite Hlv, Hml. apply (inv_level _ _ HI).
  - rewrite Hhd. apply (inv_nodup _ _ HI).
  - eapply Forall_impl; [apply (inv_nodes _ _ HI)|].
    intros x. simpl. by rewrite Hk, Hht, Hlv.
  - eapply StronglySorted_impl; [|apply (inv_sorted _ _ HI)].
    intros a b _ _. unfold kz. by rewrite !Hk.
  - intros i Hi. rewrite Hml in Hi.
    rewrite (lane_of_ext (heap s) (heap s')) by (intros; apply Hht).
    rewrite Hhd. eapply path_ext; [|by apply (inv_lanes _ _ HI)].
    intros y _. apply Hf.
  - rewrite Hlv. destruct (inv_top _ _ HI) as [?|(x & ? & ?)]; [by left|].
    right. exists x. by rewrite Hht.
Qed.

(** ** Insert of a key that is present *)

Lemma update_forward_pred s L R upd j :
  Inv s (L ++ R) →
  upd !! j = Some (Some (pred_at s L j)) → j ≤ max_level s →
  update_forward (heap s) upd j = Ok (entry (lane_of (heap s) j R) None).
Proof.
  intros HI Hu Hj. unfold update_forward, list_get. rewrite Hu. cbn [bind].
  by apply pred_at_next.
Qed.

Lemma update_forward_0 s L R upd :
  Inv s (L ++ R) →
  (∀ j, j ≤ level s → upd !! j = Some (Some (pred_at s L j))) →
  update_forward (heap s) upd 0 = Ok (entry R None).
Proof.
  intros HI Hu. unfold update_forward, list_get.
  rewrite Hu by lia. cbn [bind]. by apply pred_at_0_next.
Qed.

Lemma insert_existing rnd s L y R k v :
  Inv s (L ++ y :: R) → key_of (heap s) y = Some k →
  ∃ n, heap s !! y = Some n ∧ key n = Some k ∧
    insert rnd s k v =
      Ok (mkSkipList (max_level s) (p s) (level s) (header s)
            (<[y := mkNode (key n) v (forward n)]> (heap s))).
Proof.
  intros HI Hy. destruct (Inv_around _ _ _ _ _ HI Hy) as [HL HR].
  assert (HR' : Forall (kge (heap s) k) (y :: R)).
  { apply Forall_cons. split; [exists k; split; [done|lia]|].
    eapply Forall_impl; [done|]. apply kgt_kge. }
  destruct (find_updates_spec s L (y :: R) k HI HL HR') as (upd & Hf & _ & Hu).
  assert (Hin : y ∈ L ++ y :: R) by (apply elem_of_app; right; apply list_elem_of_here).
  pose proof (Inv_heights s L (y :: R) HI y Hin) as Hh.
  destruct (is_key_in (heap s) y k) as (n & Hn & Hk); [lia|].
  exists n. split; [done|]. split.
  { unfold key_of in Hy. by rewrite Hn in Hy. }
  unfold insert. rewrite Hf. cbn [bind].
  rewrite (update_forward_0 s L (y :: R) upd HI Hu). cbn [bind entry].
  rewrite Hk, decide_True by done. cbn [bind].
  destruct (set_value_spec (heap s) y v) as (n' & Hn' & ->); [lia|].
  rewrite Hn in Hn'. by injection Hn' as <-.
Qed.

Lemma Inv_set_value s ls y n v :
  Inv s ls → heap s !! y = Some n →
  Inv (mkSkipList (max_level s) (p s) (level s) (header s)
         (<[y := mkNode (key n) v (forward n)]> (heap s))) ls.
Proof.
  intros HI Hn.
  destruct (insert_value_views (heap s) y n v Hn) as (_ & Hv & Hf & _ & _).
  by eapply Inv_transfer.
Qed.

(** ** The level generator *)

Lemma random_level_from_bounds prob rnd ml : ∀ fuel lvl,
  lvl ≤ ml → lvl ≤ random_level_from fuel ml prob rnd lvl ≤ ml.
Proof.
  induction fuel as [|fuel IH]; intros lvl Hl; simpl.
  - destruct (_ && _); lia.
  - destruct (Qltb _ _); simpl; [|lia].
    destruct (Nat.ltb_spec lvl ml); [|lia].
    specialize (IH (S lvl)). lia.
Qed.

Lemma random_level_le s rnd : _random_level s rnd ≤ max_level s.
Proof.
  unfold _random_level.
  pose proof (random_level_from_bounds (p s) rnd (max_level s) (max_level s) 0). lia.
Qed.

(** ** The loops of insert *)

Lemma fill_header_spec hdr : ∀ n i (upd : list (option loc)),
  i + n ≤ length upd →
  ∃ upd', fill_header n i upd hdr = Ok upd' ∧ length upd' = length upd ∧
    ∀ j, upd' !! j = if decide (i ≤ j < i + n) then Some (Some hdr) else upd !! j.
Proof.
  induction n as [|n IH]; intros i upd Hlen; simpl.
  - exists upd. split; [done|]. split; [done|].
    intros j. rewrite decide_False; [done|lia].
  - unfold list_set. destruct (Nat.ltb_spec i (length upd)); [|lia]. cbn [bind].
    destruct (IH (S i) (<[i:=Some hdr]> upd)) as (upd' & -> & Hl & Hu);
      [rewrite length_insert; lia|].
    exists upd'. split; [done|]. split; [by rewrite Hl, length_insert|].
    intros j. rewrite Hu. repeat case_decide; try lia; try done.
    + assert (j = i) as -> by lia. by rewrite list_lookup_insert_eq.
    + rewrite list_lookup_insert_ne; [done|lia].
Qed.

Lemma keeps_ht h h' y : keeps h h' → ht h' y = ht h y.
Proof. intros [_ H]. apply H. Qed.

Lemma splice_spec upd x (u : nat → loc) : ∀ n i h,
  (∀ j, i ≤ j < i + n →
     upd !! j = Some (Some (u j)) ∧ u j ≠ x ∧ j < ht h (u j)) →
  i + n ≤ ht h x →
  ∃ h', splice n i h upd x = Ok h' ∧ keeps h h' ∧
    ∀ y j, get_forward h' y j =
      if decide (i ≤ j < i + n) then
        if decide (y = x) then get_forward h (u j) j
        else if decide (y = u j) then Ok (Some x)
        else get_forward h y j
      else get_forward h y j.
Proof.
  induction n as [|n IH]; intros i h Hu Hx.
  - exists h. split; [done|]. split; [apply keeps_refl|].
    intros y j. rewrite decide_False; [done|lia].
  - destruct (Hu i) as (Hui & Hne & Hht); [lia|].
    destruct (get_forward_is_Ok h (u i) i Hht) as [nxt Hnxt].
    destruct (set_forward_spec h x i nxt) as (h1 & Hs1 & Hk1 & Hf1); [lia|].
    destruct (set_forward_spec h1 (u i) i (Some x)) as (h2 & Hs2 & Hk2 & Hf2).
    { by rewrite (keeps_ht _ _ _ Hk1). }
    pose proof (keeps_trans _ _ _ Hk1 Hk2) as Hk12.
    destruct (IH (S i) h2) as (h' & Hs & Hk & Hf).
    { intros j Hj. destruct (Hu j) as (? & ? & ?); [lia|].
      by rewrite (keeps_ht _ _ _ Hk12). }
    { rewrite (keeps_ht _ _ _ Hk12). lia. }
    exists h'. split; [|split; [by eapply keeps_trans|]].
    + cbn [splice]. unfold update_forward, list_get. rewrite Hui. cbn [bind].
      rewrite Hnxt. cbn [bind]. rewrite Hs1. cbn [bind].
      rewrite Hs2. cbn [bind]. done.
    + intros y j. rewrite Hf.
      destruct (decide (j = i)) as [->|Hji].
      * rewrite decide_False by lia. rewrite decide_True by lia.
        rewrite Hf2, Hf1.
        destruct (decide (y = x)) as [->|Hyx].
        -- rewrite decide_False by (intros [? _]; congruence).
           by rewrite decide_True.
        -- destruct (decide (y = u i)) as [->|Hyu].
           ++ by rewrite decide_True.
           ++ rewrite decide_False by (intros [? _]; congruence).
              rewrite decide_False by (intros [? _]; congruence). done.
      * assert (Hsame : ∀ z, get_forward h2 z j = get_forward h z j).
        { intros z. rewrite Hf2, Hf1.
          rewrite decide_False by (intros [_ ?]; congruence).
          rewrite decide_False by (intros [_ ?]; congruence). done. }
        rewrite !Hsame.
        destruct (decide (S i ≤ j < S i + n)).
        -- rewrite (decide_True (P := i ≤ j < i + S n)) by lia. done.
        -- rewrite (decide_False (P := i ≤ j < i + S n)) by lia. done.
Qed.

(** ** The invariant after splicing a new node *)

Lemma NoDup_insert_mid {A} (x : A) (l1 l2 : list A) :
  NoDup (l1 ++ l2) → x ∉ l1 ++ l2 → NoDup (l1 ++ x :: l2).
Proof.
  rewrite !NoDup_app, NoDup_cons, not_elem_of_app.
  intros (H1 & H12 & H2) [Hx1 Hx2]. split; [done|]. split; [|done].
  intros y Hy [->|Hy2]%elem_of_cons; [done|]. by apply (H12 y).
Qed.

Lemma NoDup_delete_mid {A} (x : A) (l1 l2 : list A) :
  NoDup (l1 ++ x :: l2) → NoDup (l1 ++ l2) ∧ x ∉ l1 ++ l2.
Proof.
  rewrite !NoDup_app, NoDup_cons, not_elem_of_app.
  intros (H1 & H12 & Hx2 & H2). split; [split; [done|split; [|done]]|split].
  - intros y Hy Hy2. apply (H12 y Hy). by apply list_elem_of_further.
  - intros Hx1. apply (H12 x Hx1). apply list_elem_of_here.
  - done.
Qed.

Lemma lane_of_NoDup h i x ls : NoDup (x :: ls) → NoDup (x :: lane_of h i ls).
Proof.
  rewrite !NoDup_cons. intros [Hx Hnd]. split.
  - rewrite lane_of_elem. tauto.
  - by apply NoDup_filter.
Qed.

Lemma lane_of_mid h i L x R :
  lane_of h i (L ++ x :: R) =
    lane_of h i L ++ (if decide (i < ht h x) then x :: lane_of h i R else lane_of h i R).
Proof. unfold lane_of. by rewrite filter_app, filter_cons. Qed.

Lemma Inv_insert_new s L R k h' nl lvl' x :
  Inv s (L ++ R) →
  Forall (klt (heap s) k) L → Forall (kgt (heap s) k) R →
  nl ≤ max_level s → lvl' = level s `max` nl → x = length (heap s) →
  (∀ y, y < x → key_of h' y = key_of (heap s) y ∧ ht h' y = ht (heap s) y) →
  key_of h' x = Some k → ht h' x = nl + 1 →
  (∀ y j, y < x → get_forward h' y j =
     if decide (j ≤ nl ∧ y = pred_at s L j) then Ok (Some x)
     else get_forward (heap s) y j) →
  (∀ j, j ≤ nl → get_forward h' x j = get_forward (heap s) (pred_at s L j) j) →
  Inv (mkSkipList (max_level s) (p s) lvl' (header s) h') (L ++ x :: R).
Proof.
  intros HI HL HR Hnl -> Hxe Hold Hkx Hhx Hf Hfx.
  assert (Hin : ∀ y, y ∈ header s :: L ++ R → y < x).
  { intros y Hy. rewrite Hxe. by apply (Inv_in_heap _ _ _ HI). }
  assert (Hx : x ∉ header s :: L ++ R).
  { intros Hx%Hin. lia. }
  assert (HinL : ∀ y, y ∈ L → y < x).
  { intros y Hy. apply Hin, list_elem_of_further, elem_of_app. by left. }
  assert (HinR : ∀ y, y ∈ R → y < x).
  { intros y Hy. apply Hin, list_elem_of_further, elem_of_app. by right. }
  assert (Hhd : header s < x) by apply Hin, list_elem_of_here.
  pose proof (inv_nodup _ _ HI) as Hnd.
  assert (Hht : ∀ y, y ∈ L ++ R → ht h' y = ht (heap s) y).
  { intros y Hy. apply Hold, Hin. by apply list_elem_of_further. }
  assert (Hlane : ∀ i A, (∀ y, y ∈ A → y ∈ L ++ R) → lane_of h' i A = lane_of (heap s) i A).
  { intros i A HA. apply lane_of_ext. intros y Hy. by apply Hht, HA. }
  split; simpl.
  - destruct (Hold (header s) Hhd) as [_ ->]. apply (inv_header _ _ HI).
  - pose proof (inv_level _ _ HI). lia.
  - apply (NoDup_insert_mid x (header s :: L) R); [done|]. done.
  - pose proof (inv_nodes _ _ HI) as Hn. rewrite Forall_forall in Hn.
    apply Forall_forall. intros y [HyL|[->|HyR]%elem_of_cons]%elem_of_app.
    + destruct (Hold y (HinL y HyL)) as [-> ->].
      destruct (Hn y) as [? ?]; [apply elem_of_app; by left|]. split; [done|lia].
    + rewrite Hkx, Hhx. split; [done|lia].
    + destruct (Hold y (HinR y HyR)) as [-> ->].
      destruct (Hn y) as [? ?]; [apply elem_of_app; by right|]. split; [done|lia].
  - assert (HkL : ∀ y, y ∈ L → kz h' y = kz (heap s) y).
    { intros y Hy. unfold kz. by destruct (Hold y (HinL y Hy)) as [-> _]. }
    assert (HkR : ∀ y, y ∈ R → kz h' y = kz (heap s) y).
    { intros y Hy. unfold kz. by destruct (Hold y (HinR y Hy)) as [-> _]. }
    assert (Hkzx : kz h' x = k) by (unfold kz; by rewrite Hkx).
    pose proof (inv_sorted _ _ HI) as Hs.
    apply StronglySorted_app in Hs as (Hlr & HsL & HsR).
    rewrite Forall_forall in HL, HR.
    apply StronglySorted_app. split; [|split].
    + intros a b Ha [->|Hb]%elem_of_cons.
      * rewrite Hkzx, (HkL a Ha). destruct (HL a Ha) as (ka & Hka & ?).
        unfold kz. by rewrite Hka.
      * rewrite (HkL a Ha), (HkR b Hb). by apply Hlr.
    + eapply StronglySorted_impl; [|done]. intros a b Ha Hb.
      by rewrite (HkL a Ha), (HkL b Hb).
    + apply StronglySorted_cons. split.
      * apply Forall_forall. intros b Hb. rewrite Hkzx, (HkR b Hb).
        destruct (HR b Hb) as (kb & Hkb & ?). unfold kz. by rewrite Hkb.
      * eapply StronglySorted_impl; [|done]. intros a b Ha Hb.
        by rewrite (HkR a Ha), (HkR b Hb).
  - intros i Hi. rewrite lane_of_mid, Hhx.
    rewrite !Hlane by (intros y Hy; apply elem_of_app; auto).
    pose proof (lane_path s L R HI i Hi) as Hp.
    assert (HA : ∀ y, y ∈ header s :: lane_of (heap s) i L → y < x).
    { intros y [->|[_ Hy]%lane_of_elem]%elem_of_cons; [done|by apply HinL]. }
    assert (HB : ∀ y, y ∈ lane_of (heap s) i R → y < x).
    { intros y [_ Hy]%lane_of_elem. by apply HinR. }
    case_decide as Hil.
    + apply path_app. apply path_app in Hp as [HpA HpB]. split.
      * cbn [entry]. eapply path_redirect; [| | |exact HpA].
        -- apply lane_of_NoDup. apply NoDup_cons in Hnd as [HhLR HndLR].
           apply NoDup_cons. apply NoDup_app in HndLR as (? & _ & _).
           rewrite not_elem_of_app in HhLR. tauto.
        -- intros y Hy Hne. rewrite (Hf y i (HA y Hy)).
           rewrite decide_False; [done|]. intros [_ ?]. done.
        -- rewrite Hf by apply HA, endp_in.
           rewrite decide_True; [done|]. split; [lia|done].
      * cbn [tailpath]. apply path_entry. split.
        -- rewrite Hfx by lia. by apply path_end in HpA.
        -- eapply tailpath_ext; [|exact HpB].
           intros y Hy. rewrite (Hf y i (HB y Hy)).
           rewrite decide_False; [done|]. intros [_ ->].
           apply lane_of_elem in Hy as [_ Hy].
           pose proof (pred_at_in s L i) as Hpin.
           apply NoDup_cons in Hnd as [HhLR HndLR].
           apply NoDup_app in HndLR as (_ & Hdisj & _).
           apply elem_of_cons in Hpin as [Heq|[_ HpL]%lane_of_elem].
           ++ apply HhLR. rewrite <-Heq. apply elem_of_app. by right.
           ++ by apply (Hdisj _ HpL).
    + eapply path_ext; [|exact Hp].
      intros y Hy. rewrite Hf.
      * rewrite decide_False; [done|]. intros [? _]. lia.
      * apply elem_of_cons in Hy as [->|[Hy|Hy]%elem_of_app]; [done|..].
        -- apply HA. by apply list_elem_of_further.
        -- by apply HB.
  - destruct (decide (level s < nl)) as [Hlt|Hge].
    + right. exists x. split.
      * apply elem_of_app. right. apply list_elem_of_here.
      * rewrite Hhx. lia.
    + destruct (inv_top _ _ HI) as [Hz|(y & Hy & Hlty)].
      * left. lia.
      * right. exists y. split.
        -- apply elem_of_app. apply elem_of_app in Hy as [?|?]; [by left|].
           right. by apply list_elem_of_further.
        -- rewrite (Hht y Hy). lia.
Qed.

(** ** Insert of a key that is absent *)

Lemma lookup_views h h' y :
  h' !! y = h !! y →
  key_of h' y = key_of h y ∧ val_of h' y = val_of h y ∧ ht h' y = ht h y ∧
  ∀ j, get_forward h' y j = get_forward h y j.
Proof.
  intros H. unfold key_of, val_of, ht, get_forward, get_node. by rewrite H.
Qed.

Lemma is_key_miss s L R k :
  Inv s (L ++ R) → Forall (kgt (heap s) k) R →
  is_key (heap s) (entry R None) k = Ok None.
Proof.
  intros HI HR. destruct R as [|y R]; [done|]. cbn [entry].
  assert (Hin : y ∈ L ++ y :: R) by (apply elem_of_app; right; apply list_elem_of_here).
  pose proof (Inv_heights s L (y :: R) HI y Hin) as Hh.
  destruct (is_key_in (heap s) y k) as (n & _ & ->); [lia|].
  apply Forall_cons in HR as [(ky & Hky & Hlt) _].
  rewrite decide_False; [done|]. rewrite Hky. intros [= ->]. lia.
Qed.

Lemma insert_new rnd s L R k v :
  Inv s (L ++ R) →
  Forall (klt (heap s) k) L → Forall (kgt (heap s) k) R →
  let x := length (heap s) in
  let nl := _random_level s rnd in
  ∃ h',
    insert rnd s k v =
      Ok (mkSkipList (max_level s) (p s) (level s `max` nl) (header s) h') ∧
    Inv (mkSkipList (max_level s) (p s) (level s `max` nl) (header s) h')
      (L ++ x :: R) ∧
    key_of h' x = Some k ∧ val_of h' x = v ∧ ht h' x = nl + 1 ∧
    ∀ y, y < x →
      key_of h' y = key_of (heap s) y ∧ val_of h' y = val_of (heap s) y ∧
      ht h' y = ht (heap s) y.
Proof.
  intros HI HL HR. cbv zeta.
  remember (length (heap s)) as x eqn:Hx0.
  remember (_random_level s rnd) as nl eqn:Hnl0.
  assert (HR' : Forall (kge (heap s) k) R).
  { eapply Forall_impl; [done|]. apply kgt_kge. }
  pose proof (random_level_le s rnd) as Hnl. rewrite <-Hnl0 in Hnl.
  pose proof (inv_level _ _ HI) as Hlv.
  destruct (find_updates_spec s L R k HI HL HR') as (upd & Hfu & Hlen & Hu).
  (* the update array after the header fill *)
  assert (∃ upd',
    (if level s <? nl
     then fill_header (nl - level s) (level s + 1) upd (header s)
     else Ok upd) = Ok upd' ∧
    ∀ j, j ≤ nl → upd' !! j = Some (Some (pred_at s L j))) as (upd' & Hfill & Hu').
  { destruct (Nat.ltb_spec (level s) nl) as [Hlt|Hge].
    - destruct (fill_header_spec (header s) (nl - level s) (level s + 1) upd)
        as (upd' & -> & _ & Hu'); [lia|].
      exists upd'. split; [done|]. intros j Hj. rewrite Hu'.
      case_decide as Hd.
      + rewrite (pred_at_above s L R HI); [done|lia].
      + apply Hu. lia.
    - exists upd. split; [done|]. intros j Hj. apply Hu. lia. }
  (* the arena after allocation *)
  remember (heap s ++ [new_node nl (Some k) v]) as h1 eqn:Hh1.
  assert (Hl1 : ∀ y, y < x → h1 !! y = heap s !! y).
  { intros y Hy. rewrite Hh1. apply lookup_app_l. lia. }
  assert (Hx1 : h1 !! x = Some (new_node nl (Some k) v)).
  { rewrite Hh1, Hx0. by apply list_lookup_middle. }
  assert (Hhx1 : ht h1 x = nl + 1).
  { unfold ht. rewrite Hx1. simpl. by rewrite length_replicate. }
  assert (Hin : ∀ j, pred_at s L j < x).
  { intros j. rewrite Hx0. apply (Inv_in_heap _ _ _ HI).
    pose proof (pred_at_in s L j) as [->|[_ Hp]%lane_of_elem]%elem_of_cons.
    - apply list_elem_of_here.
    - apply list_elem_of_further, elem_of_app. by left. }
  destruct (splice_spec upd' x (pred_at s L) (nl + 1) 0 h1) as (h' & Hsp & Hk & Hf).
  { intros j Hj. split; [apply Hu'; lia|]. split; [pose proof (Hin j); lia|].
    destruct (lookup_views _ _ _ (Hl1 _ (Hin j))) as (_ & _ & -> & _).
    eapply get_forward_Ok, (pred_at_next s L R HI). lia. }
  { lia. }
  assert (Hold : ∀ y, y < x →
    key_of h' y = key_of (heap s) y ∧ val_of h' y = val_of (heap s) y ∧
    ht h' y = ht (heap s) y).
  { intros y Hy. destruct Hk as [_ Hk]. destruct (Hk y) as (-> & -> & ->).
    destruct (lookup_views _ _ _ (Hl1 y Hy)) as (? & ? & ? & _). done. }
  assert (Hnew : key_of h' x = Some k ∧ val_of h' x = v ∧ ht h' x = nl + 1).
  { destruct Hk as [_ Hk]. destruct (Hk x) as (-> & -> & ->).
    unfold key_of, val_of. by rewrite Hx1. }
  destruct Hnew as (Hkx & Hvx & Hhx).
  exists h'. split; [|split; [|done]].
  - unfold insert. rewrite Hfu. cbn [bind].
    rewrite (update_forward_0 s L R upd HI Hu). cbn [bind].
    rewrite (is_key_miss s L R k HI HR). cbn [bind].
    rewrite <-Hnl0, Hfill. cbn [bind]. rewrite <-Hx0, <-Hh1.
    rewrite Hsp. cbn [bind]. do 2 f_equal.
    destruct (Nat.ltb_spec (level s) nl); lia.
  - apply (Inv_insert_new s L R k h' nl _ x HI HL HR Hnl eq_refl Hx0);
      [|done..| |].
    + intros y Hy. destruct (Hold y Hy) as (? & _ & ?). done.
    + intros y j Hy. rewrite Hf.
      rewrite (decide_False (P := y = x)) by lia.
      destruct (lookup_views _ _ _ (Hl1 _ Hy)) as (_ & _ & _ & Hg).
      destruct (decide (j ≤ nl)) as [Hj|Hj].
      * rewrite (decide_True (P := 0 ≤ j < 0 + (nl + 1))) by lia.
        destruct (decide (y = pred_at s L j)) as [->|Hne].
        -- rewrite decide_True; done.
        -- rewrite decide_False by (intros [_ ?]; done). apply Hg.
      * rewrite (decide_False (P := 0 ≤ j < 0 + (nl + 1))) by lia.
        rewrite decide_False by (intros [? _]; lia). apply Hg.
    + intros j Hj. rewrite Hf.
      rewrite (decide_True (P := 0 ≤ j < 0 + (nl + 1))) by lia.
      rewrite decide_True by done.
      destruct (lookup_views _ _ _ (Hl1 _ (Hin j))) as (_ & _ & _ & Hg). apply Hg.
Qed.

(** ** The loops of delete *)

Lemma unlink_spec upd x (u : nat → loc) : ∀ n i h,
  (∀ j, i ≤ j < i + n → upd !! j = Some (Some (u j)) ∧ j < ht h (u j)) →
  (∀ j, i ≤ j < i + n → get_forward h (u j) j = Ok (Some x) → j < ht h x) →
  ∃ h', unlink n i h upd x = Ok h' ∧ keeps h h' ∧
    (∀ j, i ≤ j < i + n → get_forward h (u j) j = Ok (Some x) →
       get_forward h' (u j) j = get_forward h x j) ∧
    (∀ y j, ¬ (i ≤ j < i + n ∧ y = u j ∧ get_forward h y j = Ok (Some x)) →
       get_forward h' y j = get_forward h y j).
Proof.
  induction n as [|n IH]; intros i h Hu Hx.
  - exists h. split; [done|]. split; [apply keeps_refl|]. split; [intros; lia|done].
  - destruct (Hu i) as (Hui & Hht); [lia|].
    destruct (get_forward_is_Ok h (u i) i Hht) as [nxt Hnxt].
    (* one iteration *)
    assert (∃ h2,
      (if decide (nxt = Some x) then
         do xf <- get_forward h x i;
         do u0 <- list_get upd i;
         match u0 with
         | None => Raise AttributeError
         | Some y => set_forward h y i xf
         end
       else Ok h) = Ok h2 ∧ keeps h h2 ∧
      (∀ y j, j ≠ i → get_forward h2 y j = get_forward h y j) ∧
      (∀ y, y ≠ u i → get_forward h2 y i = get_forward h y i) ∧
      (nxt = Some x → get_forward h2 (u i) i = get_forward h x i) ∧
      (nxt ≠ Some x → h2 = h)) as (h2 & Hit & Hk2 & Hne & Hoth & Hhit & Hmiss).
    { case_decide as Hd.
      - destruct (get_forward_is_Ok h x i) as [xf Hxf].
        { apply Hx; [lia|]. by rewrite Hnxt, Hd. }
        rewrite Hxf. cbn [bind]. unfold list_get. rewrite Hui. cbn [bind].
        destruct (set_forward_spec h (u i) i xf Hht) as (h2 & -> & Hk2 & Hf2).
        exists h2. split; [done|]. split; [done|]. repeat split.
        + intros y j Hj. rewrite Hf2. rewrite decide_False; [done|]. by intros [_ ?].
        + intros y Hy. rewrite Hf2. rewrite decide_False; [done|]. by intros [? _].
        + intros _. rewrite Hf2. rewrite decide_True; done.
        + done.
      - exists h. split; [done|]. split; [apply keeps_refl|]. repeat split; done. }
    destruct (IH (S i) h2) as (h' & Hs & Hk & Hf1 & Hf2).
    { intros j Hj. destruct (Hu j) as (? & ?); [lia|].
      by rewrite (keeps_ht _ _ _ Hk2). }
    { intros j Hj. rewrite (Hne _ j) by lia. rewrite (keeps_ht _ _ _ Hk2).
      apply Hx. lia. }
    exists h'. split; [|split; [by eapply keeps_trans|split]].
    + cbn [unlink]. unfold update_forward at 1, list_get at 1.
      rewrite Hui. cbn [bind]. rewrite Hnxt. cbn [bind].
      rewrite Hit. cbn [bind]. done.
    + intros j Hj Hg. destruct (decide (j = i)) as [->|Hji].
      * rewrite Hf2 by (intros [? _]; lia). apply Hhit. congruence.
      * rewrite Hf1; [by apply Hne|lia|]. by rewrite Hne.
    + intros y j Hn. destruct (decide (j = i)) as [->|Hji].
      * rewrite Hf2 by (intros [? _]; lia).
        destruct (decide (y = u i)) as [->|Hyu]; [|by apply Hoth].
        rewrite Hmiss; [done|]. intros Heq. apply Hn.
        split; [lia|]. split; [done|]. by rewrite Hnxt, Heq.
      * rewrite Hf2; [by apply Hne|]. intros (? & ? & Hg). apply Hn.
        split; [lia|]. split; [done|]. by rewrite <-(Hne y j).
Qed.

Lemma shrink_level_spec h hdr : ∀ lvl,
  lvl < ht h hdr →
  ∃ l', shrink_level h hdr lvl = Ok l' ∧ l' ≤ lvl ∧
    (∀ j, l' < j ≤ lvl → get_forward h hdr j = Ok None) ∧
    (l' = 0 ∨ ∃ y, get_forward h hdr l' = Ok (Some y)).
Proof.
  induction lvl as [|lvl IH]; intros Hl.
  - exists 0. split; [done|]. split; [done|]. split; [intros; lia|by left].
  - destruct (get_forward_is_Ok h hdr (S lvl) Hl) as [[y|] Hf]; cbn [shrink_level];
      rewrite Hf; cbn [bind].
    + exists (S lvl). split; [done|]. split; [done|].
      split; [intros; lia|right; by exists y].
    + destruct IH as (l' & -> & Hle & Habove & Htop); [lia|].
      exists l'. split; [done|]. split; [lia|]. split; [|done].
      intros j Hj. destruct (decide (j = S lvl)) as [->|?]; [done|].
      apply Habove. lia.
Qed.

(** ** The invariant after unlinking a node *)

Lemma path_nil_lane h i x A : path h i x A None → get_forward h x i = Ok None → A = [].
Proof.
  intros [Hp _]%path_entry Hg. destruct A; [done|].
  simpl in Hp. congruence.
Qed.

Lemma Inv_delete s L x R h' lvl' :
  Inv s (L ++ x :: R) →
  keeps (heap s) h' →
  (∀ j, j ≤ level s →
     get_forward (heap s) (pred_at s L j) j = Ok (Some x) →
     get_forward h' (pred_at s L j) j = get_forward (heap s) x j) →
  (∀ y j, ¬ (j ≤ level s ∧ y = pred_at s L j ∧
             get_forward (heap s) y j = Ok (Some x)) →
     get_forward h' y j = get_forward (heap s) y j) →
  lvl' ≤ level s →
  (∀ j, lvl' < j ≤ level s → get_forward h' (header s) j = Ok None) →
  (lvl' = 0 ∨ ∃ y, get_forward h' (header s) lvl' = Ok (Some y)) →
  Inv (mkSkipList (max_level s) (p s) lvl' (header s) h') (L ++ R).
Proof.
  intros HI Hk Hhit Hmiss Hle Habove Htop.
  pose proof (inv_nodup _ _ HI) as Hnd.
  pose proof (inv_level _ _ HI) as Hlv.
  destruct (NoDup_delete_mid x (header s :: L) R Hnd) as [Hnd' Hx].
  assert (Hht : ∀ y, ht h' y = ht (heap s) y) by (intros; by apply keeps_ht).
  assert (Hkey : ∀ y, key_of h' y = key_of (heap s) y).
  { intros y. destruct Hk as [_ Hk]. apply Hk. }
  assert (Hlane : ∀ i A, lane_of h' i A = lane_of (heap s) i A).
  { intros i A. apply lane_of_ext. intros; apply Hht. }
  assert (Hhx : 1 ≤ ht (heap s) x ≤ level s + 1).
  { apply (Inv_heights s L (x :: R) HI). apply elem_of_app. right.
    apply list_elem_of_here. }
  assert (HxR : x ∉ R).
  { intros HxR. apply Hx. apply list_elem_of_further, elem_of_app. by right. }
  assert (Hdisj : ∀ i y, y ∈ lane_of (heap s) i R → y ≠ pred_at s L i).
  { intros i y [_ Hy]%lane_of_elem ->.
    pose proof (pred_at_in s L i) as Hpin.
    apply NoDup_cons in Hnd' as [HhLR HndLR].
    apply NoDup_app in HndLR as (_ & Hd & _).
    apply elem_of_cons in Hpin as [Heq|[_ HpL]%lane_of_elem].
    - apply HhLR. rewrite <-Heq. apply elem_of_app. by right.
    - by apply (Hd _ HpL). }
  assert (Hlanes : ∀ i, i ≤ max_level s →
    path h' i (header s) (lane_of (heap s) i (L ++ R)) None).
  { intros i Hi. pose proof (inv_lanes _ _ HI i Hi) as Hp.
    rewrite lane_of_mid in Hp. rewrite lane_of_app.
    case_decide as Hix.
    - apply path_app in Hp as [HpA HpB]. cbn [entry tailpath] in *.
      apply path_entry in HpB as [Hxf HpB].
      pose proof (path_end _ _ _ _ _ HpA) as Hend. fold (pred_at s L i) in Hend.
      apply path_app. split.
      + eapply path_redirect; [| | |exact HpA].
        * apply lane_of_NoDup. apply NoDup_cons in Hnd' as [HhLR HndLR].
          apply NoDup_cons. apply NoDup_app in HndLR as (? & _ & _).
          rewrite not_elem_of_app in HhLR. tauto.
        * intros y Hy Hne. apply Hmiss. intros (_ & ? & _). done.
        * fold (pred_at s L i). rewrite Hhit; [done|lia|done].
      + eapply tailpath_ext; [|exact HpB].
        intros y Hy. apply Hmiss. intros (_ & ? & _). by apply (Hdisj i y).
    - eapply path_ext; [|exact Hp].
      intros y Hy. apply Hmiss. intros (_ & -> & Hg).
      apply path_app in Hp as [HpA _]. apply path_end in HpA.
      fold (pred_at s L i) in HpA. rewrite HpA in Hg.
      destruct (lane_of (heap s) i R) as [|b B] eqn:HB; [done|].
      cbn [entry] in Hg. injection Hg as ->.
      apply HxR. assert (x ∈ lane_of (heap s) i R) as [_ ?]%lane_of_elem; [|done].
      rewrite HB. apply list_elem_of_here. }
  split; simpl.
  - rewrite Hht. apply (inv_header _ _ HI).
  - lia.
  - done.
  - apply Forall_forall. intros y Hy.
    assert (HyLR : y ∈ L ++ x :: R).
    { apply elem_of_app. apply elem_of_app in Hy as [?|?]; [by left|].
      right. by apply list_elem_of_further. }
    pose proof (inv_nodes _ _ HI) as Hn. rewrite Forall_forall in Hn.
    destruct (Hn y HyLR) as [Hsome Hh]. rewrite Hkey, Hht. split; [done|].
    split; [lia|].
    destruct (decide (ht (heap s) y ≤ lvl' + 1)) as [|Hgt]; [done|].
    exfalso.
    assert (Hj : lvl' < ht (heap s) y - 1 ≤ level s) by lia.
    pose proof (Hlanes (ht (heap s) y - 1)) as Hp.
    apply path_nil_lane in Hp; [|lia|by apply Habove].
    assert (y ∈ lane_of (heap s) (ht (heap s) y - 1) (L ++ R)) as Hyl.
    { apply lane_of_elem. split; [lia|done]. }
    rewrite Hp in Hyl. by apply elem_of_nil in Hyl.
  - pose proof (inv_sorted _ _ HI) as Hs.
    apply StronglySorted_app in Hs as (Hlr & HsL & HsR).
    apply StronglySorted_cons in HsR as [_ HsR].
    apply StronglySorted_app. split; [|split].
    + intros a b Ha Hb. unfold kz. rewrite !Hkey.
      apply Hlr; [done|by apply list_elem_of_further].
    + eapply StronglySorted_impl; [|exact HsL]. intros a b _ _.
      unfold kz. by rewrite !Hkey.
    + eapply StronglySorted_impl; [|exact HsR]. intros a b _ _.
      unfold kz. by rewrite !Hkey.
  - intros i Hi. rewrite Hlane. by apply Hlanes.
  - destruct Htop as [?|[y Hy]]; [by left|]. right.
    pose proof (Hlanes lvl') as Hp. apply path_entry in Hp as [Hp _]; [|lia].
    rewrite Hy in Hp. injection Hp as Hp.
    destruct (lane_of (heap s) lvl' (L ++ R)) as [|b B] eqn:HB; [done|].
    assert (b ∈ lane_of (heap s) lvl' (L ++ R)) as [? ?]%lane_of_elem.
    { rewrite HB. apply list_elem_of_here. }
    exists b. by rewrite Hht.
Qed.

(** ** Delete *)

Lemma delete_present s L x R k :
  Inv s (L ++ x :: R) → key_of (heap s) x = Some k →
  ∃ h' lvl',
    delete s k = Ok (true, mkSkipList (max_level s) (p s) lvl' (header s) h') ∧
    Inv (mkSkipList (max_level s) (p s) lvl' (header s) h') (L ++ R) ∧
    keeps (heap s) h' ∧ lvl' ≤ level s ∧
    (∀ j, lvl' < j ≤ level s → get_forward h' (header s) j = Ok None) ∧
    (lvl' = 0 ∨ ∃ y, get_forward h' (header s) lvl' = Ok (Some y)).
Proof.
  intros HI Hx. destruct (Inv_around _ _ _ _ _ HI Hx) as [HL HR].
  assert (HR' : Forall (kge (heap s) k) (x :: R)).
  { apply Forall_cons. split; [exists k; split; [done|lia]|].
    eapply Forall_impl; [done|]. apply kgt_kge. }
  pose proof (inv_level _ _ HI) as Hlv.
  pose proof (inv_nodup _ _ HI) as Hnd.
  destruct (NoDup_delete_mid x (header s :: L) R Hnd) as [_ Hxn].
  destruct (find_updates_spec s L (x :: R) k HI HL HR') as (upd & Hfu & _ & Hu).
  assert (Hin : x ∈ L ++ x :: R) by (apply elem_of_app; right; apply list_elem_of_here).
  pose proof (Inv_heights s L (x :: R) HI x Hin) as Hh.
  destruct (is_key_in (heap s) x k) as (n & Hn & Hk); [lia|].
  destruct (unlink_spec upd x (pred_at s L) (level s + 1) 0 (heap s))
    as (h' & Hun & Hkeep & Hhit & Hmiss).
  { intros j Hj. split; [apply Hu; lia|].
    eapply get_forward_Ok, (pred_at_next s L (x :: R) HI). lia. }
  { intros j Hj Hg. rewrite (pred_at_next s L (x :: R) HI) in Hg by lia.
    unfold lane_of in Hg. rewrite filter_cons in Hg.
    case_decide as Hd; [done|]. exfalso.
    destruct (filter _ R) as [|b B] eqn:HB; [done|].
    cbn [entry] in Hg. injection Hg as ->.
    assert (x ∈ filter (λ y, j < ht (heap s) y) R) as [_ ?]%list_elem_of_filter.
    { rewrite HB. apply list_elem_of_here. }
    apply Hxn. apply list_elem_of_further, elem_of_app. by right. }
  destruct (shrink_level_spec h' (header s) (level s))
    as (lvl' & Hsh & Hle & Habove & Htop).
  { rewrite (keeps_ht _ _ _ Hkeep), (inv_header _ _ HI). lia. }
  exists h', lvl'. split; [|split; [|done]].
  - unfold delete. rewrite Hfu. cbn [bind].
    rewrite (update_forward_0 s L (x :: R) upd HI Hu). cbn [bind entry].
    rewrite Hk, decide_True by done. cbn [bind].
    rewrite Hun. cbn [bind]. rewrite Hsh. done.
  - apply (Inv_delete s L x R h' lvl' HI Hkeep); [| |done..].
    + intros j Hj. apply Hhit. lia.
    + intros y j Hneg. apply Hmiss. intros (? & ? & ?). apply Hneg.
      split; [lia|done].
Qed.

Lemma delete_absent s L R k :
  Inv s (L ++ R) → Forall (klt (heap s) k) L → Forall (kgt (heap s) k) R →
  delete s k = Ok (false, s).
Proof.
  intros HI HL HR.
  assert (HR' : Forall (kge (heap s) k) R).
  { eapply Forall_impl; [done|]. apply kgt_kge. }
  destruct (find_updates_spec s L R k HI HL HR') as (upd & Hfu & _ & Hu).
  unfold delete. rewrite Hfu. cbn [bind].
  rewrite (update_forward_0 s L R upd HI Hu). cbn [bind].
  rewrite (is_key_miss s L R k HI HR). done.
Qed.

(** ** Presence of a key *)

(** Every key is either on the chain or splits it strictly. *)
Lemma Inv_cases s ls k :
  Inv s ls →
  (∃ L y R, ls = L ++ y :: R ∧ key_of (heap s) y = Some k) ∨
  (∃ L R, ls = L ++ R ∧ Forall (klt (heap s) k) L ∧ Forall (kgt (heap s) k) R).
Proof.
  intros HI. destruct (Inv_split s ls k HI) as (L & R & -> & HL & HR).
  destruct R as [|y R].
  - right. by exists L, [].
  - apply Forall_cons in HR as [(ky & Hky & Hle) HR].
    destruct (decide (ky = k)) as [->|Hne].
    + left. by exists L, y, R.
    + right. exists L, (y :: R). split; [done|]. split; [done|].
      assert (Hgt : kgt (heap s) k y) by (exists ky; split; [done|lia]).
      apply Forall_cons. split; [done|].
      destruct (Inv_around s L y R ky HI Hky) as [_ HR'].
      eapply Forall_impl; [exact HR'|].
      intros z (kz' & ? & ?). exists kz'. split; [done|lia].
Qed.

(** ** Reachable states *)

Lemma Inv_init ml prob : Inv (init ml prob) [].
Proof.
  split; simpl.
  - unfold ht. simpl. by rewrite length_replicate.
  - lia.
  - apply NoDup_singleton.
  - constructor.
  - constructor.
  - intros i Hi. unfold get_forward, get_node, list_get. simpl.
    rewrite lookup_replicate_2; [done|lia].
  - by left.
Qed.

Lemma wf_init ml prob : wf (init ml prob).
Proof. exists []. apply Inv_init. Qed.

Lemma insert_wf rnd s k v : wf s → ∃ s', insert rnd s k v = Ok s' ∧ wf s'.
Proof.
  intros [ls HI].
  destruct (Inv_cases s ls k HI) as [(L & y & R & -> & Hy)|(L & R & -> & HL & HR)].
  - destruct (insert_existing rnd s L y R k v HI Hy) as (n & Hn & _ & ->).
    eexists. split; [done|]. exists (L ++ y :: R). by apply Inv_set_value.
  - destruct (insert_new rnd s L R k v HI HL HR) as (h' & -> & HI' & _).
    eexists. split; [done|]. by eexists.
Qed.

Lemma delete_wf s k : wf s → ∃ b s', delete s k = Ok (b, s') ∧ wf s'.
Proof.
  intros [ls HI].
  destruct (Inv_cases s ls k HI) as [(L & y & R & -> & Hy)|(L & R & -> & HL & HR)].
  - destruct (delete_present s L y R k HI Hy) as (h' & lvl' & -> & HI' & _).
    eexists _, _. split; [done|]. by eexists.
  - rewrite (delete_absent s L R k HI HL HR).
    eexists _, _. split; [done|]. by eexists.
Qed.

Lemma reachable_wf s : reachable s → wf s.
Proof.
  induction 1 as [ml prob|s rnd k v s' _ IH Hins|s k b s' _ IH Hdel].
  - apply wf_init.
  - destruct (insert_wf rnd s k v IH) as (s'' & Heq & Hwf). congruence.
  - destruct (delete_wf s k IH) as (b' & s'' & Heq & Hwf). congruence.
Qed.

(** ** Keys on the chain *)

Lemma stored_split s ls k v :
  Inv s ls → stored s k v →
  ∃ L y R, ls = L ++ y :: R ∧ key_of (heap s) y = Some k ∧ val_of (heap s) y = v.
Proof.
  intros HI (ns & x & Hns & Hx & Hk & Hv).
  rewrite (lane_0_spec s ls HI) in Hns. injection Hns as <-.
  apply list_elem_of_split in Hx as (L & R & ->). by exists L, x, R.
Qed.

Lemma split_stored s L y R k :
  Inv s (L ++ y :: R) → key_of (heap s) y = Some k →
  stored s k (val_of (heap s) y).
Proof.
  intros HI Hy. exists (L ++ y :: R), y. split; [by apply lane_0_spec|].
  split; [|done]. apply elem_of_app. right. apply list_elem_of_here.
Qed.

Lemma absent_split s ls k :
  Inv s ls → ¬ present s k →
  ∃ L R, ls = L ++ R ∧ Forall (klt (heap s) k) L ∧ Forall (kgt (heap s) k) R.
Proof.
  intros HI Hn.
  destruct (Inv_cases s ls k HI) as [(L & y & R & -> & Hy)|?]; [|done].
  destruct Hn. eexists. by eapply split_stored.
Qed.

Lemma split_absent s L R k :
  Inv s (L ++ R) → Forall (klt (heap s) k) L → Forall (kgt (heap s) k) R →
  ¬ present s k.
Proof.
  intros HI HL HR (v & Hst).
  destruct (stored_split s _ k v HI Hst) as (L' & y & R' & Heq & Hy & _).
  assert (y ∈ L ++ R) as [Hin|Hin]%elem_of_app.
  { rewrite Heq. apply elem_of_app. right. apply list_elem_of_here. }
  - rewrite Forall_forall in HL. destruct (HL y Hin) as (ky & Hky & ?).
    rewrite Hy in Hky. injection Hky as <-. lia.
  - rewrite Forall_forall in HR. destruct (HR y Hin) as (ky & Hky & ?).
    rewrite Hy in Hky. injection Hky as <-. lia.
Qed.

(** A key sits on one node only. *)
Lemma key_unique s L y R x k :
  Inv s (L ++ y :: R) → key_of (heap s) y = Some k →
  x ∈ L ++ y :: R → key_of (heap s) x = Some k → x = y.
Proof.
  intros HI Hy Hx Hkx. destruct (Inv_around s L y R k HI Hy) as [HL HR].
  rewrite Forall_forall in HL, HR.
  apply elem_of_app in Hx as [Hx|[->|Hx]%elem_of_cons]; [|done|].
  - destruct (HL x Hx) as (kx & Hk' & ?). rewrite Hkx in Hk'.
    injection Hk' as <-. lia.
  - destruct (HR x Hx) as (kx & Hk' & ?). rewrite Hkx in Hk'.
    injection Hk' as <-. lia.
Qed.

Lemma search_stored s k v : wf s → stored s k v → search s k = Ok v.
Proof.
  intros [ls HI] Hst.
  destruct (stored_split s ls k v HI Hst) as (L & y & R & -> & Hy & <-).
  by eapply search_hit.
Qed.

Lemma search_absent s k : wf s → ¬ present s k → search s k = Ok PyNone.
Proof.
  intros [ls HI] Hn.
  destruct (absent_split s ls k HI Hn) as (L & R & -> & HL & HR).
  by eapply search_miss.
Qed.

(** ** The demonstration states are reachable *)

Lemma reachable_demo3 : reachable demo3.
Proof.
  eapply (reach_insert demo2 (draws 0) 15 (PyStr "val_15")); [|reflexivity].
  eapply (reach_insert demo1 (draws 2) 5 (PyStr "val_5")); [|reflexivity].
  eapply (reach_insert (init 3 (1 # 2)) (draws 1) 20 (PyStr "val_20")); [|reflexivity].
  apply reach_init.
Qed.

Lemma wf_demo3 : wf demo3.
Proof. apply reachable_wf, reachable_demo3. Qed.

Lemma stored_demo3_5 : stored demo3 5 (PyStr "val_5").
Proof.
  exists [2; 3; 1], 2. split; [reflexivity|]. split; [|done].
  apply list_elem_of_here.
Qed.

Lemma absent_demo3_7 : ¬ present demo3 7.
Proof.
  intros (v & ns & x & Hns & Hx & Hk & _).
  vm_compute in Hns. injection Hns as <-.
  repeat (apply elem_of_cons in Hx as [->|Hx]; [by vm_compute in Hk|]).
  by apply elem_of_nil in Hx.
Qed.

(** * The claims *)

(** C1 (round trip): on every well-formed state, [insert(k, v)] returns,
    and [search(k)] on the state it leaves returns [v]. *)
Theorem insert_search_roundtrip rnd s k v :
  wf s → ∃ s', insert rnd s k v = Ok s' ∧ search s' k = Ok v.
Proof.
  intros [ls HI].
  destruct (Inv_cases s ls k HI) as [(L & y & R & -> & Hy)|(L & R & -> & HL & HR)].
  - destruct (insert_existing rnd s L y R k v HI Hy) as (n & Hn & Hkn & ->).
    eexists. split; [done|].
    pose proof (Inv_set_value s _ y n v HI Hn) as HI'.
    destruct (insert_value_views (heap s) y n v Hn) as (_ & Hv & _ & Hval & _).
    rewrite (search_hit _ L y R k HI'); simpl.
    + by rewrite Hval.
    + destruct (Hv y) as [-> _]. done.
  - destruct (insert_new rnd s L R k v HI HL HR) as (h' & -> & HI' & Hk & Hv & _).
    eexists. split; [done|].
    rewrite (search_hit _ L (length (heap s)) R k HI'); simpl; [|done].
    by rewrite Hv.
Qed.

Lemma insert_search_roundtrip_witness :
  ∃ s', insert (draws 1) demo3 10 (PyStr "TEN") = Ok s' ∧
        search s' 10 = Ok (PyStr "TEN").
Proof. apply (insert_search_roundtrip (draws 1) demo3 10 (PyStr "TEN")), wf_demo3. Defined.

(** C2 (delete): on every well-formed state, [delete(k)] of a present key
    returns true, a following [search(k)] returns the absent result and
    [len()] is one less; [delete(k)] of an absent key returns false and
    leaves the state as it was. *)
Theorem delete_correct s k :
  wf s →
  (present s k →
     ∃ s' n, delete s k = Ok (true, s') ∧ search s' k = Ok PyNone ∧
       __len__ s = Ok (S n) ∧ __len__ s' = Ok n) ∧
  (¬ present s k → delete s k = Ok (false, s)).
Proof.
  intros [ls HI]. split.
  - intros [v Hst].
    destruct (stored_split s ls k v HI Hst) as (L & y & R & -> & Hy & _).
    destruct (delete_present s L y R k HI Hy) as (h' & lvl' & -> & HI' & Hk & _).
    destruct (Inv_around s L y R k HI Hy) as [HL HR].
    eexists _, (length (L ++ R)). split; [done|]. split; [|split].
    + apply (search_miss _ L R k HI'); simpl.
      * eapply Forall_impl; [exact HL|]. intros z (kz' & Hz & ?).
        exists kz'. split; [|done]. destruct Hk as [_ Hk].
        destruct (Hk z) as (-> & _). done.
      * eapply Forall_impl; [exact HR|]. intros z (kz' & Hz & ?).
        exists kz'. split; [|done]. destruct Hk as [_ Hk].
        destruct (Hk z) as (-> & _). done.
    + rewrite (len_spec s _ HI). f_equal. rewrite !length_app. simpl. lia.
    + by rewrite (len_spec _ _ HI').
  - intros Hn.
    destruct (absent_split s ls k HI Hn) as (L & R & -> & HL & HR).
    by apply (delete_absent s L R k).
Qed.

Lemma delete_correct_witness :
  (∃ s' n, delete demo3 5 = Ok (true, s') ∧ search s' 5 = Ok PyNone ∧
     __len__ demo3 = Ok (S n) ∧ __len__ s' = Ok n) ∧
  delete demo3 7 = Ok (false, demo3).
Proof.
  destruct (delete_correct demo3 5 wf_demo3) as [Hp _].
  destruct (delete_correct demo3 7 wf_demo3) as [_ Ha].
  split.
  - apply Hp. eexists. apply stored_demo3_5.
  - apply Ha, absent_demo3_7.
Defined.

(** ** Keys of a chain are distinct *)

Lemma sorted_keys_NoDup (f : nat → Z) (l : list nat) :
  StronglySorted (λ a b, (f a < f b)%Z) l → NoDup (f <$> l).
Proof.
  induction 1 as [|x l _ IH Hx]; [constructor|].
  rewrite fmap_cons. apply NoDup_cons. split; [|done].
  intros (y & Heq & Hy)%list_elem_of_fmap.
  rewrite Forall_forall in Hx. specialize (Hx y Hy). lia.
Qed.

Lemma Inv_keys_NoDup s ls : Inv s ls → NoDup (key_of (heap s) <$> ls).
Proof.
  intros HI. apply (NoDup_fmap_1 (default 0%Z)).
  rewrite <-list_fmap_compose.
  apply (sorted_keys_NoDup (kz (heap s))), (inv_sorted _ _ HI).
Qed.

(** C3 (upsert): on every well-formed state in which [k] is present,
    [insert(k, v)] replaces the value field of the node that holds [k] and
    nothing else: the arena keeps its size (no node is created), every
    node keeps its key and its forward references, the current level and
    the other fields of the list are unchanged, [len()] and the level-0
    chain are unchanged, and the keys of the level-0 chain are distinct. *)
Theorem insert_present_overwrites rnd s k v :
  wf s → present s k →
  ∃ x n s',
    heap s !! x = Some n ∧ key n = Some k ∧
    insert rnd s k v = Ok s' ∧
    s' = mkSkipList (max_level s) (p s) (level s) (header s)
           (<[x := mkNode (key n) v (forward n)]> (heap s)) ∧
    length (heap s') = length (heap s) ∧
    forward <$> heap s' = forward <$> heap s ∧
    key <$> heap s' = key <$> heap s ∧
    __len__ s' = __len__ s ∧
    ∃ ns, lane s 0 = Ok ns ∧ lane s' 0 = Ok ns ∧ x ∈ ns ∧
      NoDup (key_of (heap s') <$> ns).
Proof.
  intros [ls HI] [v0 Hst].
  destruct (stored_split s ls k v0 HI Hst) as (L & y & R & -> & Hy & _).
  destruct (insert_existing rnd s L y R k v HI Hy) as (n & Hn & Hkn & Hins).
  pose proof (Inv_set_value s _ y n v HI Hn) as HI'.
  exists y, n. eexists. split; [done|]. split; [done|]. split; [exact Hins|].
  split; [done|]. simpl.
  split; [by rewrite length_insert|].
  split; [|split].
  - rewrite list_fmap_insert. simpl. apply list_insert_id.
    by rewrite list_lookup_fmap, Hn.
  - rewrite list_fmap_insert. simpl. apply list_insert_id.
    by rewrite list_lookup_fmap, Hn.
  - split; [by rewrite (len_spec _ _ HI'), (len_spec _ _ HI)|].
    exists (L ++ y :: R). split; [by apply lane_0_spec|].
    split; [by apply lane_0_spec|]. split.
    + apply elem_of_app. right. apply list_elem_of_here.
    + apply (Inv_keys_NoDup _ _ HI').
Qed.

Lemma insert_present_overwrites_witness :
  ∃ x n s',
    heap demo3 !! x = Some n ∧ key n = Some 5%Z ∧
    insert (draws 3) demo3 5 (PyStr "FIVE") = Ok s' ∧
    s' = mkSkipList (max_level demo3) (p demo3) (level demo3) (header demo3)
           (<[x := mkNode (key n) (PyStr "FIVE") (forward n)]> (heap demo3)) ∧
    length (heap s') = length (heap demo3) ∧
    forward <$> heap s' = forward <$> heap demo3 ∧
    key <$> heap s' = key <$> heap demo3 ∧
    __len__ s' = __len__ demo3 ∧
    ∃ ns, lane demo3 0 = Ok ns ∧ lane s' 0 = Ok ns ∧ x ∈ ns ∧
      NoDup (key_of (heap s') <$> ns).
Proof.
  apply (insert_present_overwrites (draws 3) demo3 5 (PyStr "FIVE") wf_demo3).
  eexists. apply stored_demo3_5.
Defined.

(** ** Consequences of the invariant *)

Lemma StronglySorted_filter {A} (R : relation A) (P : A → Prop)
    `{∀ x, Decision (P x)} (l : list A) :
  StronglySorted R l → StronglySorted R (filter P l).
Proof.
  induction 1 as [|x l _ IH Hx]; [constructor|].
  rewrite filter_cons. case_decide; [|done].
  apply StronglySorted_cons. split; [|done].
  rewrite Forall_forall in Hx. apply Forall_forall.
  intros y [_ Hy]%list_elem_of_filter. by apply Hx.
Qed.

Lemma Inv_lane_keys s ls i :
  Inv s ls →
  key_of (heap s) <$> lane_of (heap s) i ls =
    Some <$> (kz (heap s) <$> lane_of (heap s) i ls) ∧
  StronglySorted Z.lt (kz (heap s) <$> lane_of (heap s) i ls).
Proof.
  intros HI. split.
  - rewrite <-list_fmap_compose. apply list_fmap_ext.
    intros j x Hx%list_elem_of_lookup_2. apply lane_of_elem in Hx as [_ Hx].
    pose proof (inv_nodes _ _ HI) as Hn. rewrite Forall_forall in Hn.
    destruct (Hn x Hx) as [[kx Hkx] _]. simpl. unfold kz. by rewrite Hkx.
  - apply (StronglySorted_fmap _ (λ a b, (kz (heap s) a < kz (heap s) b)%Z));
      [done|].
    apply (StronglySorted_filter _ (λ x, i < ht (heap s) x)).
    apply (inv_sorted _ _ HI).
Qed.

(** Levels above the current one are empty. *)
Lemma Inv_above s ls j :
  Inv s ls → level s < j ≤ max_level s →
  get_forward (heap s) (header s) j = Ok None.
Proof.
  intros HI Hj. pose proof (inv_lanes _ _ HI j) as Hp.
  rewrite lane_of_none in Hp; [apply Hp; lia|].
  eapply Forall_impl; [apply (inv_nodes _ _ HI)|]. intros x [_ ?]. simpl in *. lia.
Qed.

(** The current level, when positive, is occupied. *)
Lemma Inv_top_occupied s ls :
  Inv s ls → 0 < level s →
  ∃ y, get_forward (heap s) (header s) (level s) = Ok (Some y).
Proof.
  intros HI Hpos. destruct (inv_top _ _ HI) as [?|(x & Hx & Hlt)]; [lia|].
  pose proof (inv_lanes _ _ HI (level s) (inv_level _ _ HI)) as Hp.
  apply path_entry in Hp as [Hp _].
  destruct (lane_of (heap s) (level s) ls) as [|b B] eqn:HB.
  - assert (x ∈ lane_of (heap s) (level s) ls) as Hin by by apply lane_of_elem.
    rewrite HB in Hin. by apply elem_of_nil in Hin.
  - by exists b.
Qed.

(** Forward references of the header and of chain nodes stay on the chain. *)
Lemma Inv_refs s ls y j z :
  Inv s ls → y ∈ header s :: ls →
  get_forward (heap s) y j = Ok (Some z) → z ∈ ls.
Proof.
  intros HI Hy Hg. pose proof (get_forward_Ok _ _ _ _ Hg) as Hj.
  assert (Hjm : j ≤ max_level s).
  { apply elem_of_cons in Hy as [->|Hy].
    - rewrite (inv_header _ _ HI) in Hj. lia.
    - pose proof (inv_nodes _ _ HI) as Hn. rewrite Forall_forall in Hn.
      destruct (Hn y Hy) as [_ ?]. pose proof (inv_level _ _ HI). lia. }
  pose proof (inv_lanes _ _ HI j Hjm) as Hp.
  assert (∀ B, entry B None = Some z → z ∈ B) as Hentry.
  { intros [|b B]; [done|]. intros [= ->]. apply list_elem_of_here. }
  apply elem_of_cons in Hy as [->|Hy].
  - apply path_entry in Hp as [Hp _]. rewrite Hg in Hp. injection Hp as Hp.
    symmetry in Hp. apply Hentry in Hp. by apply lane_of_elem in Hp as [_ ?].
  - assert (y ∈ lane_of (heap s) j ls) as Hin by by apply lane_of_elem.
    apply list_elem_of_split in Hin as (A & B & HAB). rewrite HAB in Hp.
    apply path_app in Hp as [_ Hp]. cbn [tailpath] in Hp.
    apply path_entry in Hp as [Hp _]. rewrite Hg in Hp. injection Hp as Hp.
    symmetry in Hp. apply Hentry in Hp.
    assert (z ∈ lane_of (heap s) j ls) as [_ ?]%lane_of_elem; [|done].
    rewrite HAB. apply elem_of_app. right. by apply list_elem_of_further.
Qed.

(** C4 (sortedness): in every reachable state, at every level [i] the
    walk along [forward[i]] from the header returns, and the keys of the
    nodes it visits are strictly increasing. *)
Theorem sortedness_invariant s i :
  reachable s → i ≤ max_level s →
  ∃ ns ks, lane s i = Ok ns ∧ key_of (heap s) <$> ns = Some <$> ks ∧
    StronglySorted Z.lt ks.
Proof.
  intros [ls HI]%reachable_wf Hi.
  exists (lane_of (heap s) i ls), (kz (heap s) <$> lane_of (heap s) i ls).
  split; [by apply lane_spec|]. by apply Inv_lane_keys.
Qed.

Lemma sortedness_invariant_witness :
  ∃ ns ks, lane demo3 1 = Ok ns ∧ key_of (heap demo3) <$> ns = Some <$> ks ∧
    StronglySorted Z.lt ks.
Proof.
  apply (sortedness_invariant demo3 1 reachable_demo3). vm_compute. lia.
Defined.

(** C5 (monotone participation): in every reachable state and for every
    level [i] below the current level, the nodes reached at level [i+1]
    are among those reached at level [i]. *)
Theorem subset_invariant s i :
  reachable s → i < level s →
  ∃ upper lower, lane s (i + 1) = Ok upper ∧ lane s i = Ok lower ∧
    upper ⊆ lower.
Proof.
  intros [ls HI]%reachable_wf Hi. pose proof (inv_level _ _ HI) as Hlv.
  exists (lane_of (heap s) (i + 1) ls), (lane_of (heap s) i ls).
  split; [apply lane_spec; [done|lia]|]. split; [apply lane_spec; [done|lia]|].
  intros x Hx. eapply lane_of_le; [|exact Hx]. lia.
Qed.

Lemma subset_invariant_witness :
  ∃ upper lower, lane demo3 (0 + 1) = Ok upper ∧ lane demo3 0 = Ok lower ∧
    upper ⊆ lower.
Proof.
  apply (subset_invariant demo3 0 reachable_demo3). vm_compute. lia.
Defined.

(** C6 (level occupancy): in every reachable state a positive current
    level has a node at [header.forward[level]]; and deleting the key of
    the only node of the top level returns true and leaves a state whose
    current level is lower (when it was positive), is occupied when
    positive, and has every level above it empty. *)
Theorem level_occupancy s :
  reachable s →
  (0 < level s →
     ∃ y, get_forward (heap s) (header s) (level s) = Ok (Some y)) ∧
  (∀ k x, lane s (level s) = Ok [x] → key_of (heap s) x = Some k →
     ∃ s', delete s k = Ok (true, s') ∧
       (0 < level s → level s' < level s) ∧
       (0 < level s' →
          ∃ y, get_forward (heap s') (header s') (level s') = Ok (Some y)) ∧
       (∀ j, level s' < j ≤ max_level s' →
          get_forward (heap s') (header s') j = Ok None)).
Proof.
  intros [ls HI]%reachable_wf. split; [by apply (Inv_top_occupied s ls)|].
  intros k x Hlane Hk.
  rewrite (lane_spec s ls _ HI (inv_level _ _ HI)) in Hlane.
  injection Hlane as Hlane.
  assert (x ∈ lane_of (heap s) (level s) ls) as [Hhx Hx]%lane_of_elem.
  { rewrite Hlane. apply list_elem_of_here. }
  apply list_elem_of_split in Hx as (L & R & ->).
  destruct (delete_present s L x R k HI Hk)
    as (h' & lvl' & Hdel & HI' & Hkeep & Hle & _).
  eexists. split; [exact Hdel|]. simpl. split; [|split].
  - intros Hpos. destruct (decide (lvl' = level s)) as [->|]; [|lia]. exfalso.
    destruct (inv_top _ _ HI') as [?|(b & Hb & Hlt)]; simpl in *; [lia|].
    rewrite (keeps_ht _ _ _ Hkeep) in Hlt.
    assert (b ∈ lane_of (heap s) (level s) (L ++ x :: R)) as Hin.
    { apply lane_of_elem. split; [done|].
      apply elem_of_app. apply elem_of_app in Hb as [?|?]; [by left|].
      right. by apply list_elem_of_further. }
    rewrite Hlane in Hin. apply list_elem_of_singleton in Hin as ->.
    pose proof (inv_nodup _ _ HI) as Hnd.
    destruct (NoDup_delete_mid x (header s :: L) R Hnd) as [_ Hxn].
    apply Hxn. by apply list_elem_of_further.
  - intros Hpos. by apply (Inv_top_occupied _ _ HI').
  - intros j Hj. by apply (Inv_above _ _ j HI').
Qed.

Lemma level_occupancy_witness :
  (∃ y, get_forward (heap demo3) (header demo3) (level demo3) = Ok (Some y)) ∧
  ∃ s', delete demo3 5 = Ok (true, s') ∧
    (0 < level demo3 → level s' < level demo3) ∧
    (0 < level s' →
       ∃ y, get_forward (heap s') (header s') (level s') = Ok (Some y)) ∧
    (∀ j, level s' < j ≤ max_level s' →
       get_forward (heap s') (header s') j = Ok None).
Proof.
  destruct (level_occupancy demo3 reachable_demo3) as [Htop Hdel]. split.
  - apply Htop. vm_compute. lia.
  - apply (Hdel 5%Z 2); reflexivity.
Defined.

(** C9 (level bounds heights): in every reachable state no node of the
    list has a forward slot above the current level; and deleting the key
    of a node of the list returns true and leaves a state in which the
    node is off the level-0 chain and no forward slot of the header or of
    a remaining node refers to it. *)
Theorem level_bounds_heights s :
  reachable s →
  (∀ ns x, lane s 0 = Ok ns → x ∈ ns → ht (heap s) x ≤ level s + 1) ∧
  (∀ k ns x, lane s 0 = Ok ns → x ∈ ns → key_of (heap s) x = Some k →
     ∃ s' ns', delete s k = Ok (true, s') ∧ lane s' 0 = Ok ns' ∧ (x ∉ ns') ∧
       ∀ y j, y ∈ header s' :: ns' →
         get_forward (heap s') y j ≠ Ok (Some x)).
Proof.
  intros [ls HI]%reachable_wf. split.
  - intros ns x Hns Hx. rewrite (lane_0_spec s ls HI) in Hns. injection Hns as <-.
    pose proof (inv_nodes _ _ HI) as Hn. rewrite Forall_forall in Hn.
    destruct (Hn x Hx) as [_ ?]. lia.
  - intros k ns x Hns Hx Hk.
    rewrite (lane_0_spec s ls HI) in Hns. injection Hns as <-.
    apply list_elem_of_split in Hx as (L & R & ->).
    destruct (delete_present s L x R k HI Hk) as (h' & lvl' & Hdel & HI' & _).
    pose proof (inv_nodup _ _ HI) as Hnd.
    destruct (NoDup_delete_mid x (header s :: L) R Hnd) as [_ Hxn].
    assert (Hx : x ∉ L ++ R).
    { intros Hx. by apply Hxn, list_elem_of_further. }
    eexists _, (L ++ R). split; [exact Hdel|].
    split; [by apply lane_0_spec|]. split; [done|].
    intros y j Hy Hg. apply Hx. by apply (Inv_refs _ _ y j x HI').
Qed.

Lemma level_bounds_heights_witness :
  ht (heap demo3) 2 ≤ level demo3 + 1 ∧
  ∃ s' ns', delete demo3 5 = Ok (true, s') ∧ lane s' 0 = Ok ns' ∧ (2 ∉ ns') ∧
    ∀ y j, y ∈ header s' :: ns' → get_forward (heap s') y j ≠ Ok (Some 2).
Proof.
  destruct (level_bounds_heights demo3 reachable_demo3) as [Hht Hdel]. split.
  - apply (Hht [2; 3; 1]); [reflexivity|apply list_elem_of_here].
  - apply (Hdel 5%Z [2; 3; 1]); [reflexivity|apply list_elem_of_here|reflexivity].
Defined.

(** ** Keyed access *)

Lemma present_dec s k : wf s → present s k ∨ ¬ present s k.
Proof.
  intros [ls HI].
  destruct (Inv_cases s ls k HI) as [(L & y & R & -> & Hy)|(L & R & -> & HL & HR)].
  - left. eexists. by eapply split_stored.
  - right. by eapply split_absent.
Qed.

Lemma insert_stored rnd s k v :
  wf s → ∃ s', insert rnd s k v = Ok s' ∧ wf s' ∧ stored s' k v.
Proof.
  intros [ls HI].
  destruct (Inv_cases s ls k HI) as [(L & y & R & -> & Hy)|(L & R & -> & HL & HR)].
  - destruct (insert_existing rnd s L y R k v HI Hy) as (n & Hn & Hkn & ->).
    pose proof (Inv_set_value s _ y n v HI Hn) as HI'.
    destruct (insert_value_views (heap s) y n v Hn) as (_ & Hv & _ & Hval & _).
    eexists. split; [done|]. split; [by eexists|].
    assert (Hy' : key_of (<[y:=mkNode (key n) v (forward n)]> (heap s)) y = Some k).
    { destruct (Hv y) as [-> _]. done. }
    pose proof (split_stored _ L y R k HI' Hy') as Hst. simpl in Hst.
    by rewrite Hval in Hst.
  - destruct (insert_new rnd s L R k v HI HL HR) as (h' & -> & HI' & Hk & Hv & _).
    eexists. split; [done|]. split; [by eexists|].
    pose proof (split_stored _ L (length (heap s)) R k HI' Hk) as Hst.
    simpl in Hst. by rewrite Hv in Hst.
Qed.

Lemma wf_none_state : wf none_state.
Proof.
  destruct (insert_wf (draws 0) (init 3 (1 # 2)) 1 PyNone (wf_init _ _))
    as (s' & Hins & Hwf).
  vm_compute in Hins. injection Hins as <-. exact Hwf.
Qed.

(** C7 as stated fails: a key stored with the value [None] is present,
    and the indexed read raises the key-not-found failure all the same. *)
Lemma getitem_raises_on_present_key :
  wf none_state ∧
  ¬ (__getitem__ none_state 1 = Raise (KeyError 1) ↔ ¬ present none_state 1).
Proof.
  split; [apply wf_none_state|]. intros [Hraise _]. apply Hraise; [reflexivity|].
  exists PyNone, [1], 1. split; [reflexivity|]. split; [|done].
  apply list_elem_of_here.
Qed.

(** C7 (amended): on every well-formed state the indexed read raises the
    key-not-found failure exactly when [k] is absent or is stored with
    the value [None], and returns the stored value otherwise; the indexed
    delete raises it exactly when [delete(k)] returns false; and
    [search], [insert] and [delete] return without raising. *)
Theorem keyed_access s k :
  wf s →
  (__getitem__ s k = Raise (KeyError k) ↔ ¬ present s k ∨ stored s k PyNone) ∧
  (∀ v, stored s k v → v ≠ PyNone → __getitem__ s k = Ok v) ∧
  (__delitem__ s k = Raise (KeyError k) ↔ ∃ s', delete s k = Ok (false, s')) ∧
  (∃ v, search s k = Ok v) ∧
  (∀ rnd v, ∃ s', insert rnd s k v = Ok s') ∧
  (∃ r, delete s k = Ok r).
Proof.
  intros Hwf. split; [|split; [|split; [|split; [|split]]]].
  - unfold __getitem__. split.
    + destruct (present_dec s k Hwf) as [[v Hst]|Hn]; [|by left].
      rewrite (search_stored s k v Hwf Hst). cbn [bind].
      destruct v; simpl; [|done..]. by right.
    + intros [Hn|Hst].
      * by rewrite (search_absent s k Hwf Hn).
      * by rewrite (search_stored s k _ Hwf Hst).
  - intros v Hst Hv. unfold __getitem__.
    rewrite (search_stored s k v Hwf Hst). cbn [bind]. by destruct v.
  - unfold __delitem__. destruct (delete_wf s k Hwf) as (b & s' & -> & _).
    cbn [bind fst snd]. destruct b; split; try done.
    + by intros [s'' [=]].
    + intros _. by exists s'.
  - destruct (present_dec s k Hwf) as [[v Hst]|Hn].
    + exists v. by apply search_stored.
    + exists PyNone. by apply search_absent.
  - intros rnd v. destruct (insert_wf rnd s k v Hwf) as (s' & ? & _). by exists s'.
  - destruct (delete_wf s k Hwf) as (b & s' & ? & _). by exists (b, s').
Qed.

Lemma keyed_access_witness :
  (__getitem__ demo3 7 = Raise (KeyError 7) ↔
     ¬ present demo3 7 ∨ stored demo3 7 PyNone) ∧
  __getitem__ demo3 5 = Ok (PyStr "val_5") ∧
  (__delitem__ demo3 7 = Raise (KeyError 7) ↔
     ∃ s', delete demo3 7 = Ok (false, s')).
Proof.
  destruct (keyed_access demo3 7 wf_demo3) as (Hget & _ & Hdel & _).
  destruct (keyed_access demo3 5 wf_demo3) as (_ & Hval & _).
  split; [exact Hget|]. split; [|exact Hdel].
  apply Hval; [apply stored_demo3_5|done].
Defined.

(** C10 (stored [None]): on every well-formed state, [insert(k, None)]
    returns a state in which a node of the level-0 chain holds [k],
    [len()] counts the nodes of that chain, and yet [search(k)] returns
    the absent result, [k in list] is false and the indexed read raises
    the key-not-found failure. *)
Theorem none_value_hides_key rnd s k :
  wf s →
  ∃ s' ns x, insert rnd s k PyNone = Ok s' ∧
    lane s' 0 = Ok ns ∧ x ∈ ns ∧ key_of (heap s') x = Some k ∧
    __len__ s' = Ok (length ns) ∧
    search s' k = Ok PyNone ∧
    __contains__ s' k = Ok false ∧
    __getitem__ s' k = Raise (KeyError k).
Proof.
  intros Hwf.
  destruct (insert_stored rnd s k PyNone Hwf) as (s' & Hins & Hwf' & Hst).
  pose proof (search_stored s' k PyNone Hwf' Hst) as Hsearch.
  destruct Hst as (ns & x & Hns & Hx & Hk & _).
  exists s', ns, x. split; [done|]. split; [done|]. split; [done|].
  split; [done|]. split; [|split; [done|split]].
  - destruct Hwf' as [ls HI']. rewrite (lane_0_spec _ _ HI') in Hns.
    injection Hns as <-. by apply len_spec.
  - unfold __contains__. by rewrite Hsearch.
  - unfold __getitem__. by rewrite Hsearch.
Qed.

Lemma none_value_hides_key_witness :
  ∃ s' ns x, insert (draws 1) demo3 10 PyNone = Ok s' ∧
    lane s' 0 = Ok ns ∧ x ∈ ns ∧ key_of (heap s') x = Some 10%Z ∧
    __len__ s' = Ok (length ns) ∧
    search s' 10 = Ok PyNone ∧
    __contains__ s' 10 = Ok false ∧
    __getitem__ s' 10 = Raise (KeyError 10).
Proof. apply (none_value_hides_key (draws 1) demo3 10), wf_demo3. Defined.

(** ** The level generator, in full *)

Lemma Qltb_lt x y : Qltb x y = true ↔ (x < y)%Q.
Proof. unfold Qltb, Qlt. apply Z.ltb_lt. Qed.

Lemma random_level_from_spec prob rnd ml : ∀ fuel lvl,
  fuel = ml - lvl → lvl ≤ ml →
  let r := random_level_from fuel ml prob rnd lvl in
  lvl ≤ r ≤ ml ∧
  (∀ j, lvl ≤ j < r → Qltb (rnd j) prob = true) ∧
  (r < ml → Qltb (rnd r) prob = false).
Proof.
  induction fuel as [|fuel IH]; intros lvl Hfuel Hl; simpl.
  - assert (lvl = ml) as -> by lia. rewrite Nat.ltb_irrefl, andb_false_r.
    split; [lia|]. split; intros; lia.
  - destruct (Qltb (rnd lvl) prob) eqn:Hq; simpl.
    + destruct (Nat.ltb_spec lvl ml); [|lia].
      destruct (IH (S lvl)) as (Hr & Hbelow & Hstop); [lia..|].
      split; [lia|]. split; [|done].
      intros j Hj. destruct (decide (j = lvl)) as [->|]; [done|].
      apply Hbelow. lia.
    + split; [lia|]. split; [intros; lia|done].
Qed.

Lemma random_level_from_ext prob rnd rnd' ml : ∀ fuel lvl,
  (∀ j, j < ml → rnd' j = rnd j) →
  random_level_from fuel ml prob rnd' lvl = random_level_from fuel ml prob rnd lvl.
Proof.
  induction fuel as [|fuel IH]; intros lvl Hext; simpl;
    destruct (Nat.ltb_spec lvl ml) as [Hlt|Hge];
    rewrite ?andb_false_r; try done; rewrite (Hext lvl Hlt).
  - done.
  - destruct (Qltb (rnd lvl) prob); simpl; [by apply IH|done].
Qed.

(** C8 (level generator): for every outcome [rnd] of the randomness
    source the generator returns a level between 0 and [max_level]; the
    level is the number of leading draws below [p], stopped at
    [max_level]: when the first [max_level] draws are all below [p] the
    result is [max_level], and draws from the [max_level]-th on do not
    change the result.  The generator is a total function. *)
Theorem random_level_range s rnd :
  0 ≤ _random_level s rnd ≤ max_level s ∧
  (∀ j, j < _random_level s rnd → (rnd j < p s)%Q) ∧
  (_random_level s rnd < max_level s → ¬ (rnd (_random_level s rnd) < p s)%Q) ∧
  ((∀ j, j < max_level s → (rnd j < p s)%Q) →
     _random_level s rnd = max_level s) ∧
  (∀ rnd', (∀ j, j < max_level s → rnd' j = rnd j) →
     _random_level s rnd' = _random_level s rnd).
Proof.
  unfold _random_level.
  destruct (random_level_from_spec (p s) rnd (max_level s) (max_level s) 0)
    as (Hr & Hbelow & Hstop); [lia..|].
  split; [lia|]. split; [|split; [|split]].
  - intros j Hj. apply Qltb_lt, Hbelow. lia.
  - intros Hlt Hq%Qltb_lt. rewrite Hstop in Hq; done.
  - intros Hall.
    destruct (decide (random_level_from (max_level s) (max_level s) (p s) rnd 0
                      = max_level s)) as [|Hne]; [done|].
    assert (Hlt : random_level_from (max_level s) (max_level s) (p s) rnd 0
                  < max_level s) by lia.
    specialize (Hall _ Hlt). apply Qltb_lt in Hall.
    rewrite (Hstop Hlt) in Hall. done.
  - intros rnd' Hext. by apply random_level_from_ext.
Qed.

Lemma random_level_range_witness :
  _random_level (init 3 (1 # 2)) (draws 7) = max_level (init 3 (1 # 2)).
Proof.
  destruct (random_level_range (init 3 (1 # 2)) (draws 7))
    as (_ & _ & _ & Hcap & _).
  apply Hcap. intros j Hj. simpl in Hj.
  destruct j as [|[|[|j]]]; [reflexivity..|lia].
Defined.

Example random_level_capped :
  _random_level (init 3 (1 # 2)) (draws 7) = 3 ∧
  _random_level (init 3 (1 # 2)) (draws 2) = 2 ∧
  _random_level (init 3 (1 # 2)) (draws 0) = 0.
Proof. by vm_compute. Qed.


(** * Further properties of the code *)

(** ** What [display] prints *)

Lemma get_forward_inv h x i r :
  get_forward h x i = Ok r → ∃ n, h !! x = Some n ∧ forward n !! i = Some r.
Proof.
  unfold get_forward, get_node, list_get.
  destruct (h !! x) as [n|]; simpl; [|done].
  destruct (forward n !! i) as [r'|] eqn:E; [|done].
  intros [= ->]. by exists n.
Qed.

Lemma display_from_spec h B : ∀ fuel acc,
  tailpath h 0 B None → length B ≤ fuel →
  display_from fuel h (entry B None) acc = Ok (acc ++ items h B).
Proof.
  induction B as [|b B IH]; intros fuel acc Hp Hfuel.
  - destruct fuel; simpl; by rewrite app_nil_r.
  - destruct fuel as [|fuel]; [simpl in Hfuel; lia|].
    simpl in Hp. apply path_entry in Hp as [Hb Hp].
    apply get_forward_inv in Hb as (n & Hn & Hf).
    cbn [display_from entry]. unfold get_node, list_get. rewrite Hn. cbn [bind].
    rewrite Hf. cbn [bind]. rewrite IH; [|done|simpl in Hfuel; lia].
    unfold items. rewrite fmap_cons, <-app_assoc. simpl.
    unfold key_of, val_of. by rewrite Hn.
Qed.

Lemma display_spec s ls : Inv s ls → display s = Ok (items (heap s) ls).
Proof.
  intros HI. unfold display.
  pose proof (inv_lanes _ _ HI 0) as Hp. rewrite lane_of_all in Hp.
  - apply path_entry in Hp as [-> Hp]; [|lia]. cbn [bind].
    rewrite display_from_spec; [done..|]. pose proof (Inv_length _ _ HI). lia.
  - eapply Forall_impl; [apply (inv_nodes _ _ HI)|].
    intros x [_ ?]. simpl in *. lia.
Qed.

Lemma items_app h A B : items h (A ++ B) = items h A ++ items h B.
Proof. apply fmap_app. Qed.

Lemma items_mid h L y R :
  items h (L ++ y :: R) = items h L ++ (key_of h y, val_of h y) :: items h R.
Proof. unfold items. by rewrite fmap_app, fmap_cons. Qed.

Lemma items_ext h h' ls :
  (∀ x, x ∈ ls → key_of h' x = key_of h x ∧ val_of h' x = val_of h x) →
  items h' ls = items h ls.
Proof.
  intros H. apply list_fmap_ext. intros i x Hx%list_elem_of_lookup_2.
  destruct (H x Hx) as [-> ->]. done.
Qed.

Lemma items_klt h k L : Forall (klt h k) L → keys_below k (items h L).
Proof.
  intros HL. apply Forall_fmap. eapply Forall_impl; [exact HL|].
  intros x (kx & Hk & ?). exists kx. done.
Qed.

Lemma items_kgt h k R : Forall (kgt h k) R → keys_above k (items h R).
Proof.
  intros HR. apply Forall_fmap. eapply Forall_impl; [exact HR|].
  intros x (kx & Hk & ?). exists kx. done.
Qed.

Lemma items_stored s ls k v :
  Inv s ls → (Some k, v) ∈ items (heap s) ls ↔ stored s k v.
Proof.
  intros HI. split.
  - intros (x & [= Hk Hv] & Hx)%list_elem_of_fmap.
    exists ls, x. split; [by apply lane_0_spec|]. done.
  - intros (ns & x & Hns & Hx & Hk & Hv).
    rewrite (lane_0_spec s ls HI) in Hns. injection Hns as <-.
    apply list_elem_of_fmap. exists x. by rewrite Hk, Hv.
Qed.

(** X1: on every well-formed state [display] returns; the pairs it prints
    have strictly increasing keys, and a pair is printed exactly when the
    key is stored with that value. *)
Theorem display_sorted_contents s :
  wf s →
  ∃ elems ks, display s = Ok elems ∧ elems.*1 = Some <$> ks ∧
    StronglySorted Z.lt ks ∧
    ∀ k v, (Some k, v) ∈ elems ↔ stored s k v.
Proof.
  intros [ls HI]. exists (items (heap s) ls), (kz (heap s) <$> ls).
  split; [by apply display_spec|].
  destruct (Inv_lane_keys s ls 0 HI) as [Hk Hs].
  rewrite (lane_of_all (heap s) ls) in Hk, Hs.
  2,3: eapply Forall_impl; [apply (inv_nodes _ _ HI)|]; intros x [_ ?]; simpl in *; lia.
  split; [|split; [done|]].
  - unfold items. rewrite <-list_fmap_compose. exact Hk.
  - intros k v. by apply items_stored.
Qed.

Lemma display_sorted_contents_witness :
  ∃ elems ks, display demo3 = Ok elems ∧ elems.*1 = Some <$> ks ∧
    StronglySorted Z.lt ks ∧
    ∀ k v, (Some k, v) ∈ elems ↔ stored demo3 k v.
Proof. apply (display_sorted_contents demo3 wf_demo3). Defined.

(** X2: on every well-formed state [__len__] returns the number of pairs
    that [display] prints. *)
Theorem len_counts_display s :
  wf s → ∃ elems, display s = Ok elems ∧ __len__ s = Ok (length elems).
Proof.
  intros [ls HI]. exists (items (heap s) ls). split; [by apply display_spec|].
  rewrite (len_spec s ls HI). unfold items. by rewrite length_fmap.
Qed.

Lemma len_counts_display_witness :
  ∃ elems, display demo3 = Ok elems ∧ __len__ demo3 = Ok (length elems).
Proof. apply (len_counts_display demo3 wf_demo3). Defined.

(** ** [search] is a lookup in what [display] prints *)

Lemma assoc_skip k pre post :
  Forall (λ e, e.1 ≠ Some k) pre → assoc k (pre ++ post) = assoc k post.
Proof.
  induction 1 as [|e pre He _ IH]; [done|]. simpl. by rewrite decide_False.
Qed.

Lemma assoc_mid k pre e post :
  e.1 ≠ Some k → assoc k (pre ++ e :: post) = assoc k (pre ++ post).
Proof.
  intros He. induction pre as [|e' pre IH]; simpl.
  - by rewrite decide_False.
  - by rewrite IH.
Qed.

Lemma keys_below_ne k pre : keys_below k pre → Forall (λ e, e.1 ≠ Some k) pre.
Proof.
  intros H. eapply Forall_impl; [exact H|].
  intros e (k' & -> & ?) [= ->]. lia.
Qed.

Lemma keys_above_ne k post : keys_above k post → Forall (λ e, e.1 ≠ Some k) post.
Proof.
  intros H. eapply Forall_impl; [exact H|].
  intros e (k' & -> & ?) [= ->]. lia.
Qed.

Lemma search_assoc s ls k :
  Inv s ls → search s k = Ok (assoc k (items (heap s) ls)).
Proof.
  intros HI.
  destruct (Inv_cases s ls k HI) as [(L & y & R & -> & Hy)|(L & R & -> & HL & HR)].
  - rewrite (search_hit s L y R k HI Hy). f_equal.
    destruct (Inv_around s L y R k HI Hy) as [HL _].
    rewrite items_app, assoc_skip by by apply keys_below_ne, items_klt.
    unfold items. rewrite fmap_cons. simpl. by rewrite decide_True.
  - rewrite (search_miss s L R k HI HL HR). f_equal.
    rewrite items_app, assoc_skip by by apply keys_below_ne, items_klt.
    rewrite <-(app_nil_r (items _ R)).
    by rewrite assoc_skip by by apply keys_above_ne, items_kgt.
Qed.

(** X3: on every well-formed state, [search(k)] returns what a lookup of
    [k] in the pairs printed by [display] gives: the value of the pair
    with key [k], or [None] when there is none. *)
Theorem search_is_lookup s :
  wf s →
  ∃ elems, display s = Ok elems ∧ ∀ k, search s k = Ok (assoc k elems).
Proof.
  intros [ls HI]. exists (items (heap s) ls).
  split; [by apply display_spec|]. intros k. by apply search_assoc.
Qed.

Lemma search_is_lookup_witness :
  ∃ elems, display demo3 = Ok elems ∧ ∀ k, search demo3 k = Ok (assoc k elems).
Proof. apply (search_is_lookup demo3 wf_demo3). Defined.

(** ** The contents after [insert] and [delete] *)

Lemma insert_new_items rnd s L R k v :
  Inv s (L ++ R) →
  Forall (klt (heap s) k) L → Forall (kgt (heap s) k) R →
  ∃ s', insert rnd s k v = Ok s' ∧
    Inv s' (L ++ length (heap s) :: R) ∧
    items (heap s') (L ++ length (heap s) :: R) =
      items (heap s) L ++ (Some k, v) :: items (heap s) R ∧
    level s' = level s `max` _random_level s rnd ∧
    max_level s' = max_level s ∧ p s' = p s ∧ header s' = header s ∧
    ht (heap s') (length (heap s)) = _random_level s rnd + 1.
Proof.
  intros HI HL HR.
  destruct (insert_new rnd s L R k v HI HL HR)
    as (h' & Hins & HI' & Hk & Hv & Hh & Hold).
  eexists. split; [exact Hins|]. split; [done|]. simpl.
  split; [|done].
  assert (Hsame : ∀ A, (∀ y, y ∈ A → y ∈ L ++ R) → items h' A = items (heap s) A).
  { intros A HA. apply items_ext. intros y Hy.
    destruct (Hold y) as (? & ? & _); [|done].
    apply (Inv_in_heap _ _ _ HI), list_elem_of_further, HA, Hy. }
  rewrite items_app. unfold items at 2. rewrite fmap_cons. fold (items h' R).
  rewrite Hk, Hv. rewrite !Hsame; [done|..]; intros y Hy; apply elem_of_app; auto.
Qed.

Lemma insert_existing_items rnd s L y R k v :
  Inv s (L ++ y :: R) → key_of (heap s) y = Some k →
  ∃ s', insert rnd s k v = Ok s' ∧
    Inv s' (L ++ y :: R) ∧
    items (heap s') (L ++ y :: R) =
      items (heap s) L ++ (Some k, v) :: items (heap s) R ∧
    level s' = level s ∧ max_level s' = max_level s ∧
    p s' = p s ∧ header s' = header s.
Proof.
  intros HI Hy.
  destruct (insert_existing rnd s L y R k v HI Hy) as (n & Hn & Hkn & Hins).
  pose proof (Inv_set_value s _ y n v HI Hn) as HI'.
  destruct (insert_value_views (heap s) y n v Hn) as (_ & Hv & _ & Hval & Hoth).
  eexists. split; [exact Hins|]. split; [done|]. simpl. split; [|done].
  pose proof (inv_nodup _ _ HI) as Hnd.
  destruct (NoDup_delete_mid y (header s :: L) R Hnd) as [_ Hyn].
  assert (Hsame : ∀ A, (∀ z, z ∈ A → z ∈ L ++ R) →
    items (<[y:=mkNode (key n) v (forward n)]> (heap s)) A = items (heap s) A).
  { intros A HA. apply items_ext. intros z Hz.
    destruct (lookup_views (heap s) (<[y:=mkNode (key n) v (forward n)]> (heap s)) z)
      as (? & ? & _); [|done].
    apply Hoth. intros ->. apply Hyn, list_elem_of_further, HA, Hz. }
  rewrite items_app. unfold items at 2. rewrite fmap_cons.
  fold (items (<[y:=mkNode (key n) v (forward n)]> (heap s)) R).
  rewrite Hval. destruct (Hv y) as [-> _]. rewrite Hy.
  rewrite !Hsame; [done|..]; intros z Hz; apply elem_of_app; auto.
Qed.

Lemma delete_present_items s L y R k :
  Inv s (L ++ y :: R) → key_of (heap s) y = Some k →
  ∃ s', delete s k = Ok (true, s') ∧
    Inv s' (L ++ R) ∧
    items (heap s') (L ++ R) = items (heap s) L ++ items (heap s) R ∧
    keeps (heap s) (heap s') ∧
    level s' ≤ level s ∧ max_level s' = max_level s ∧
    p s' = p s ∧ header s' = header s.
Proof.
  intros HI Hy.
  destruct (delete_present s L y R k HI Hy)
    as (h' & lvl' & Hdel & HI' & Hkeep & Hle & _).
  eexists. split; [exact Hdel|]. split; [done|]. simpl.
  split; [|done]. rewrite <-items_app. apply items_ext. intros x _.
  destruct Hkeep as [_ Hk]. destruct (Hk x) as (? & ? & _). done.
Qed.

(** X4: on every well-formed state, [insert(k, v)] of an absent key adds
    the pair [(k, v)] to what [display] prints, at its place in key
    order, and changes no other pair; [len()] grows by one, and the
    current level becomes the larger of the old level and the level
    drawn. *)
Theorem insert_absent_contents rnd s k v :
  wf s → ¬ present s k →
  ∃ s' pre post n,
    insert rnd s k v = Ok s' ∧
    display s = Ok (pre ++ post) ∧
    display s' = Ok (pre ++ (Some k, v) :: post) ∧
    keys_below k pre ∧ keys_above k post ∧
    __len__ s = Ok n ∧ __len__ s' = Ok (S n) ∧
    level s' = level s `max` _random_level s rnd.
Proof.
  intros [ls HI] Hn.
  destruct (absent_split s ls k HI Hn) as (L & R & -> & HL & HR).
  destruct (insert_new_items rnd s L R k v HI HL HR)
    as (s' & Hins & HI' & Hit & Hlv & _).
  exists s', (items (heap s) L), (items (heap s) R), (length (L ++ R)).
  split; [done|]. split; [by rewrite (display_spec _ _ HI), items_app|].
  split; [by rewrite (display_spec _ _ HI'), Hit|].
  split; [by apply items_klt|]. split; [by apply items_kgt|].
  split; [by apply len_spec|]. split; [|done].
  rewrite (len_spec _ _ HI'). f_equal. rewrite !length_app. simpl. lia.
Qed.

Lemma insert_absent_contents_witness :
  ∃ s' pre post n,
    insert (draws 1) demo3 7 (PyStr "val_7") = Ok s' ∧
    display demo3 = Ok (pre ++ post) ∧
    display s' = Ok (pre ++ (Some 7%Z, PyStr "val_7") :: post) ∧
    keys_below 7 pre ∧ keys_above 7 post ∧
    __len__ demo3 = Ok n ∧ __len__ s' = Ok (S n) ∧
    level s' = level demo3 `max` _random_level demo3 (draws 1).
Proof.
  apply (insert_absent_contents (draws 1) demo3 7 (PyStr "val_7") wf_demo3).
  apply absent_demo3_7.
Defined.

(** X5: on every well-formed state, [insert(k, v)] of a key stored with
    [v0] replaces the pair [(k, v0)] by [(k, v)] at the same place in
    what [display] prints and changes no other pair. *)
Theorem insert_present_contents rnd s k v0 v :
  wf s → stored s k v0 →
  ∃ s' pre post,
    insert rnd s k v = Ok s' ∧
    display s = Ok (pre ++ (Some k, v0) :: post) ∧
    display s' = Ok (pre ++ (Some k, v) :: post).
Proof.
  intros [ls HI] Hst.
  destruct (stored_split s ls k v0 HI Hst) as (L & y & R & -> & Hy & Hv).
  destruct (insert_existing_items rnd s L y R k v HI Hy)
    as (s' & Hins & HI' & Hit & _).
  exists s', (items (heap s) L), (items (heap s) R).
  split; [done|]. split; [|by rewrite (display_spec _ _ HI'), Hit].
  rewrite (display_spec _ _ HI), items_app. unfold items at 2.
  rewrite fmap_cons, Hy, Hv. done.
Qed.

Lemma insert_present_contents_witness :
  ∃ s' pre post,
    insert (draws 0) demo3 5 (PyStr "FIVE") = Ok s' ∧
    display demo3 = Ok (pre ++ (Some 5%Z, PyStr "val_5") :: post) ∧
    display s' = Ok (pre ++ (Some 5%Z, PyStr "FIVE") :: post).
Proof.
  apply (insert_present_contents (draws 0) demo3 5 (PyStr "val_5") (PyStr "FIVE")
           wf_demo3).
  apply stored_demo3_5.
Defined.

(** X6: on every well-formed state, [delete(k)] of a key stored with [v]
    removes the pair [(k, v)] from what [display] prints and changes no
    other pair; the current level does not grow. *)
Theorem delete_present_contents s k v :
  wf s → stored s k v →
  ∃ s' pre post,
    delete s k = Ok (true, s') ∧
    display s = Ok (pre ++ (Some k, v) :: post) ∧
    display s' = Ok (pre ++ post) ∧
    level s' ≤ level s.
Proof.
  intros [ls HI] Hst.
  destruct (stored_split s ls k v HI Hst) as (L & y & R & -> & Hy & Hv).
  destruct (delete_present_items s L y R k HI Hy)
    as (s' & Hdel & HI' & Hit & _ & Hlv & _).
  exists s', (items (heap s) L), (items (heap s) R).
  split; [done|]. split; [|split; [by rewrite (display_spec _ _ HI'), Hit|done]].
  rewrite (display_spec _ _ HI), items_app. unfold items at 2.
  rewrite fmap_cons, Hy, Hv. done.
Qed.

Lemma delete_present_contents_witness :
  ∃ s' pre post,
    delete demo3 5 = Ok (true, s') ∧
    display demo3 = Ok (pre ++ (Some 5%Z, PyStr "val_5") :: post) ∧
    display s' = Ok (pre ++ post) ∧
    level s' ≤ level demo3.
Proof.
  apply (delete_present_contents demo3 5 (PyStr "val_5") wf_demo3).
  apply stored_demo3_5.
Defined.

(** ** Other keys are left alone *)

(** X7: on every well-formed state, [insert(k, v)] does not change what
    [search] returns for any other key. *)
Theorem insert_search_other rnd s k v k' :
  wf s → k' ≠ k →
  ∃ s', insert rnd s k v = Ok s' ∧ search s' k' = search s k'.
Proof.
  intros [ls HI] Hne.
  assert (Hk : (Some k, v).1 ≠ Some k') by (simpl; congruence).
  destruct (Inv_cases s ls k HI) as [(L & y & R & -> & Hy)|(L & R & -> & HL & HR)].
  - destruct (insert_existing_items rnd s L y R k v HI Hy)
      as (s' & Hins & HI' & Hit & _).
    exists s'. split; [done|].
    rewrite (search_assoc _ _ k' HI'), (search_assoc _ _ k' HI), Hit. f_equal.
    rewrite items_mid, Hy.
    rewrite !assoc_mid; [done|simpl; congruence|done].
  - destruct (insert_new_items rnd s L R k v HI HL HR)
      as (s' & Hins & HI' & Hit & _).
    exists s'. split; [done|].
    rewrite (search_assoc _ _ k' HI'), (search_assoc _ _ k' HI), Hit. f_equal.
    by rewrite items_app, assoc_mid.
Qed.

Lemma insert_search_other_witness :
  ∃ s', insert (draws 1) demo3 10 (PyStr "TEN") = Ok s' ∧
    search s' 5 = search demo3 5.
Proof.
  apply (insert_search_other (draws 1) demo3 10 (PyStr "TEN") 5 wf_demo3). done.
Defined.

(** X8: on every well-formed state, [delete(k)] returns and does not
    change what [search] returns for any other key. *)
Theorem delete_search_other s k k' :
  wf s → k' ≠ k →
  ∃ b s', delete s k = Ok (b, s') ∧ search s' k' = search s k'.
Proof.
  intros [ls HI] Hne.
  destruct (Inv_cases s ls k HI) as [(L & y & R & -> & Hy)|(L & R & -> & HL & HR)].
  - destruct (delete_present_items s L y R k HI Hy)
      as (s' & Hdel & HI' & Hit & _).
    exists true, s'. split; [done|].
    rewrite (search_assoc _ _ k' HI'), (search_assoc _ _ k' HI), Hit. f_equal.
    rewrite items_mid, Hy, <-items_app.
    rewrite assoc_mid; [by rewrite items_app|simpl; congruence].
  - exists false, s. split; [by apply (delete_absent s L R k)|done].
Qed.

Lemma delete_search_other_witness :
  ∃ b s', delete demo3 5 = Ok (b, s') ∧ search s' 20 = search demo3 20.
Proof. apply (delete_search_other demo3 5 20 wf_demo3). done. Defined.

(** ** The empty list *)


(** ** The update array *)

(** X10: on every well-formed state [_find_updates(k)] returns an array of
    [max_level + 1] entries; at each level up to the current one the
    entry is the header or a node with a key below [k], and the node
    after it at that level, if any, has a key of at least [k]; the
    entries above the current level are [None]. *)
Theorem find_updates_predecessors s k :
  wf s →
  ∃ upd, _find_updates s k = Ok upd ∧ length upd = max_level s + 1 ∧
    (∀ j, j ≤ level s →
       ∃ u, upd !! j = Some (Some u) ∧
         (u = header s ∨ klt (heap s) k u) ∧
         (get_forward (heap s) u j = Ok None ∨
          ∃ y, get_forward (heap s) u j = Ok (Some y) ∧ kge (heap s) k y)) ∧
    (∀ j, level s < j ≤ max_level s → upd !! j = Some None).
Proof.
  intros [ls HI]. destruct (Inv_split s ls k HI) as (L & R & -> & HL & HR).
  pose proof (inv_level _ _ HI) as Hlv.
  destruct (find_updates_from_spec s L R k HI HL HR (level s) (header s)
              (replicate (max_level s + 1) None))
    as (upd & Hf & Hl & Hupd);
    [done|rewrite length_replicate; lia|apply list_elem_of_here|].
  exists upd. split; [done|]. split; [by rewrite Hl, length_replicate|]. split.
  - intros j Hj. exists (pred_at s L j). rewrite Hupd, decide_True by done.
    split; [done|]. split.
    + pose proof (pred_at_in s L j) as [->|Hin]%elem_of_cons; [by left|].
      right. pose proof (lane_klt s L k HL j) as Hk.
      rewrite Forall_forall in Hk. by apply Hk.
    + rewrite (pred_at_next s L R HI j) by lia.
      pose proof (lane_kge s R k HR j) as Hk.
      destruct (lane_of (heap s) j R) as [|y B]; [by left|].
      right. exists y. split; [done|]. by apply Forall_cons in Hk as [? _].
  - intros j Hj. rewrite Hupd, decide_False by lia.
    apply lookup_replicate_2. lia.
Qed.

Lemma find_updates_predecessors_witness :
  ∃ upd, _find_updates demo3 15 = Ok upd ∧ length upd = max_level demo3 + 1 ∧
    (∀ j, j ≤ level demo3 →
       ∃ u, upd !! j = Some (Some u) ∧
         (u = header demo3 ∨ klt (heap demo3) 15 u) ∧
         (get_forward (heap demo3) u j = Ok None ∨
          ∃ y, get_forward (heap demo3) u j = Ok (Some y) ∧
            kge (heap demo3) 15 y)) ∧
    (∀ j, level demo3 < j ≤ max_level demo3 → upd !! j = Some None).
Proof. apply (find_updates_predecessors demo3 15 wf_demo3). Defined.

(** ** The keyed-access layer *)

Lemma stored_unique s k v v' : wf s → stored s k v → stored s k v' → v = v'.
Proof.
  intros Hwf H1 H2. apply (search_stored s k v Hwf) in H1.
  apply (search_stored s k v' Hwf) in H2. congruence.
Qed.

(** X11: on every well-formed state, [list[k] = v] with [v] other than
    [None] returns a state in which the indexed read of [k] returns [v]
    and [k in list] is true. *)
Theorem setitem_getitem rnd s k v :
  wf s → v ≠ PyNone →
  ∃ s', __setitem__ rnd s k v = Ok s' ∧ __getitem__ s' k = Ok v ∧
    __contains__ s' k = Ok true.
Proof.
  intros Hwf Hv. unfold __setitem__.
  destruct (insert_stored rnd s k v Hwf) as (s' & Hins & Hwf' & Hst).
  exists s'. split; [done|].
  unfold __getitem__, __contains__. rewrite (search_stored s' k v Hwf' Hst).
  cbn [bind]. by destruct v.
Qed.

Lemma setitem_getitem_witness :
  ∃ s', __setitem__ (draws 2) demo3 10 (PyInt 3) = Ok s' ∧
    __getitem__ s' 10 = Ok (PyInt 3) ∧ __contains__ s' 10 = Ok true.
Proof. apply (setitem_getitem (draws 2) demo3 10 (PyInt 3) wf_demo3). done. Defined.

(** X12: on every well-formed state [k in list] returns, and it is true
    exactly when [k] is stored with a value other than [None]. *)
Theorem contains_iff s k :
  wf s →
  ∃ b, __contains__ s k = Ok b ∧
    (b = true ↔ ∃ v, stored s k v ∧ v ≠ PyNone).
Proof.
  intros Hwf. unfold __contains__.
  destruct (present_dec s k Hwf) as [[v Hst]|Hn].
  - rewrite (search_stored s k v Hwf Hst). cbn [bind]. eexists. split; [done|].
    split.
    + intros Hb. exists v. split; [done|]. intros ->. done.
    + intros (v' & Hst' & Hv'). rewrite (stored_unique s k v v' Hwf Hst Hst').
      by destruct v'.
  - rewrite (search_absent s k Hwf Hn). cbn [bind]. eexists. split; [done|].
    split; [done|]. intros (v & Hst & _). destruct Hn. by exists v.
Qed.

Lemma contains_iff_witness :
  ∃ b, __contains__ demo3 5 = Ok b ∧
    (b = true ↔ ∃ v, stored demo3 5 v ∧ v ≠ PyNone).
Proof. apply (contains_iff demo3 5 wf_demo3). Defined.

(** What a [delete] call leaves. *)
Lemma delete_outcome s k :
  wf s →
  ∃ b s', delete s k = Ok (b, s') ∧ wf s' ∧ ¬ present s' k ∧
    (b = true ↔ present s k).
Proof.
  intros [ls HI].
  destruct (Inv_cases s ls k HI) as [(L & y & R & -> & Hy)|(L & R & -> & HL & HR)].
  - destruct (delete_present_items s L y R k HI Hy)
      as (s' & Hdel & HI' & _ & [_ Hk] & _).
    destruct (Inv_around s L y R k HI Hy) as [HL HR].
    exists true, s'. split; [done|]. split; [by eexists|]. split.
    + apply (split_absent s' L R k HI').
      * eapply Forall_impl; [exact HL|]. intros z (kz' & Hz & ?).
        exists kz'. split; [|done]. destruct (Hk z) as (-> & _). done.
      * eapply Forall_impl; [exact HR|]. intros z (kz' & Hz & ?).
        exists kz'. split; [|done]. destruct (Hk z) as (-> & _). done.
    + split; [|done]. intros _. eexists. by eapply split_stored.
  - exists false, s. split; [by apply (delete_absent s L R k)|].
    split; [by eexists|].
    pose proof (split_absent s L R k HI HL HR) as Hn. split; [done|].
    split; [done|]. intros Hp. by destruct Hn.
Qed.

(** X13: on every well-formed state [delete(k)] returns, its result is
    true exactly when [k] was present, [k] is absent afterwards, and a
    second [delete(k)] returns false and changes nothing. *)
Theorem delete_twice s k :
  wf s →
  ∃ b s', delete s k = Ok (b, s') ∧ (b = true ↔ present s k) ∧
    ¬ present s' k ∧ delete s' k = Ok (false, s').
Proof.
  intros Hwf.
  destruct (delete_outcome s k Hwf) as (b & s' & Hdel & [ls HI'] & Hn & Hb).
  exists b, s'. split; [done|]. split; [done|]. split; [done|].
  destruct (absent_split s' ls k HI' Hn) as (L & R & -> & HL & HR).
  by apply (delete_absent s' L R k).
Qed.

Lemma delete_twice_witness :
  ∃ b s', delete demo3 5 = Ok (b, s') ∧ (b = true ↔ present demo3 5) ∧
    ¬ present s' 5 ∧ delete s' 5 = Ok (false, s').
Proof. apply (delete_twice demo3 5 wf_demo3). Defined.

(** X14: on every well-formed state, [del list[k]] of a present key
    returns a state in which [k] is absent: [k in list] is false, and the
    indexed read and a second [del list[k]] raise the key-not-found
    failure. *)
Theorem delitem_present s k :
  wf s → present s k →
  ∃ s', __delitem__ s k = Ok s' ∧ ¬ present s' k ∧
    __contains__ s' k = Ok false ∧
    __getitem__ s' k = Raise (KeyError k) ∧
    __delitem__ s' k = Raise (KeyError k).
Proof.
  intros Hwf Hp.
  destruct (delete_outcome s k Hwf) as (b & s' & Hdel & Hwf' & Hn & Hb).
  assert (b = true) as -> by by apply Hb.
  exists s'. unfold __delitem__ at 1. rewrite Hdel. cbn [bind fst snd].
  split; [done|]. split; [done|].
  pose proof (search_absent s' k Hwf' Hn) as Hs.
  split; [unfold __contains__; by rewrite Hs|].
  split; [unfold __getitem__; by rewrite Hs|].
  destruct Hwf' as [ls HI'].
  destruct (absent_split s' ls k HI' Hn) as (L & R & -> & HL & HR).
  unfold __delitem__. by rewrite (delete_absent s' L R k HI' HL HR).
Qed.

Lemma delitem_present_witness :
  ∃ s', __delitem__ demo3 5 = Ok s' ∧ ¬ present s' 5 ∧
    __contains__ s' 5 = Ok false ∧
    __getitem__ s' 5 = Raise (KeyError 5) ∧
    __delitem__ s' 5 = Raise (KeyError 5).
Proof.
  apply (delitem_present demo3 5 wf_demo3). eexists. apply stored_demo3_5.
Defined.

(** ** Extreme probabilities *)

(** X15: with draws in [0, 1) as [random.random()] gives them, a first
    draw that is not below [p] gives level 0; so [p <= 0] always gives
    level 0, and [p >= 1] always gives [max_level]. *)
Theorem random_level_extremes s rnd :
  (∀ n : nat, (0 <= rnd n)%Q ∧ (rnd n < 1)%Q) →
  (¬ (rnd 0%nat < p s)%Q → _random_level s rnd = 0) ∧
  ((p s <= 0)%Q → _random_level s rnd = 0) ∧
  ((1 <= p s)%Q → _random_level s rnd = max_level s).
Proof.
  intros Hrnd. unfold _random_level.
  destruct (random_level_from_spec (p s) rnd (max_level s) (max_level s) 0)
    as (Hr & Hbelow & Hstop); [lia..|].
  set (r := random_level_from (max_level s) (max_level s) (p s) rnd 0) in *.
  assert (Hfirst : ¬ (rnd 0%nat < p s)%Q → r = 0).
  { intros Hn. destruct (decide (r = 0)) as [|Hne]; [done|].
    destruct Hn. apply Qltb_lt, Hbelow. lia. }
  split; [done|]. split.
  - intros Hp. apply Hfirst. intros Hlt. destruct (Hrnd 0) as [H0 _].
    apply (Qlt_irrefl (rnd 0%nat)). eapply Qlt_le_trans; [exact Hlt|].
    eapply Qle_trans; [exact Hp|exact H0].
  - intros Hp. destruct (decide (r = max_level s)) as [|Hne]; [done|].
    assert (Hlt : r < max_level s) by lia. specialize (Hstop Hlt).
    destruct (Hrnd r) as [_ H1].
    assert (Hq : Qltb (rnd r) (p s) = true).
    { apply Qltb_lt. eapply Qlt_le_trans; [exact H1|exact Hp]. }
    congruence.
Qed.

Lemma random_level_extremes_witness :
  _random_level (init 3 0) (λ _, 1 # 4) = 0 ∧
  _random_level (init 3 1) (λ _, 1 # 4) = max_level (init 3 1).
Proof.
  assert (Hrnd : ∀ n : nat, (0 <= (λ _ : nat, 1 # 4) n)%Q ∧ ((λ _ : nat, 1 # 4) n < 1)%Q).
  { intros _. split; [by vm_compute|reflexivity]. }
  destruct (random_level_extremes (init 3 0) (λ _, 1 # 4) Hrnd) as (_ & H0 & _).
  destruct (random_level_extremes (init 3 1) (λ _, 1 # 4) Hrnd) as (_ & _ & H1).
  split; [apply H0|apply H1]; by vm_compute.
Defined.

(** ** The current level *)

(** X16: in every reachable state the current level is at most
    [max_level], every level above it is empty, a positive current level
    means that every level up to it holds a node, and an empty list has
    level 0. *)
Theorem level_reflects_occupancy s :
  reachable s →
  level s ≤ max_level s ∧
  (∀ j, level s < j ≤ max_level s → lane s j = Ok []) ∧
  (0 < level s → ∀ j, j ≤ level s → ∃ x ns, lane s j = Ok (x :: ns)) ∧
  (lane s 0 = Ok [] → level s = 0).
Proof.
  intros [ls HI]%reachable_wf. pose proof (inv_level _ _ HI) as Hlv.
  pose proof (inv_nodes _ _ HI) as Hn. rewrite Forall_forall in Hn.
  split; [done|]. split; [|split].
  - intros j Hj. rewrite (lane_spec s ls j HI) by lia. f_equal.
    apply lane_of_none, Forall_forall. intros x Hx.
    destruct (Hn x Hx) as [_ ?]. lia.
  - intros Hpos j Hj. rewrite (lane_spec s ls j HI) by lia.
    destruct (inv_top _ _ HI) as [?|(x & Hx & Hlt)]; [lia|].
    destruct (lane_of (heap s) j ls) as [|b B] eqn:HB; [|by exists b, B].
    assert (x ∈ lane_of (heap s) j ls) as Hin.
    { apply lane_of_elem. split; [lia|done]. }
    rewrite HB in Hin. by apply elem_of_nil in Hin.
  - rewrite (lane_0_spec s ls HI). intros [= ->].
    destruct (inv_top _ _ HI) as [?|(x & Hx & _)]; [done|].
    by apply elem_of_nil in Hx.
Qed.

Lemma level_reflects_occupancy_witness :
  level demo3 ≤ max_level demo3 ∧
  (∀ j, level demo3 < j ≤ max_level demo3 → lane demo3 j = Ok []) ∧
  (0 < level demo3 → ∀ j, j ≤ level demo3 → ∃ x ns, lane demo3 j = Ok (x :: ns)) ∧
  (lane demo3 0 = Ok [] → level demo3 = 0).
Proof. apply (level_reflects_occupancy demo3 reachable_demo3). Defined.

(** ** Insert and delete undo each other *)

Lemma Inv_level_le s s' ls :
  Inv s ls → Inv s' ls →
  (∀ x, x ∈ ls → ht (heap s') x = ht (heap s) x) → level s ≤ level s'.
Proof.
  intros HI HI' Hht.
  destruct (inv_top _ _ HI) as [?|(x & Hx & Hlt)]; [lia|].
  pose proof (inv_nodes _ _ HI') as Hn. rewrite Forall_forall in Hn.
  destruct (Hn x Hx) as [_ ?]. rewrite (Hht x Hx) in *. lia.
Qed.

(** X17: on every well-formed state, [insert(k, v)] of an absent key
    followed by [delete(k)] returns true and leaves a list with the pairs
    that [display] printed before, the same [len()], the same current
    level and the same [search] results. *)
Theorem insert_delete_restores rnd s k v :
  wf s → ¬ present s k →
  ∃ s1 s2, insert rnd s k v = Ok s1 ∧ delete s1 k = Ok (true, s2) ∧
    display s2 = display s ∧ __len__ s2 = __len__ s ∧
    level s2 = level s ∧ max_level s2 = max_level s ∧
    ∀ k', search s2 k' = search s k'.
Proof.
  intros [ls HI] Hn.
  destruct (absent_split s ls k HI Hn) as (L & R & -> & HL & HR).
  destruct (insert_new rnd s L R k v HI HL HR)
    as (h1 & Hins & HI1 & Hk & _ & _ & Hold).
  set (s1 := mkSkipList (max_level s) (p s)
               (level s `max` _random_level s rnd) (header s) h1) in *.
  destruct (delete_present_items s1 L (length (heap s)) R k HI1 Hk)
    as (s2 & Hdel & HI2 & Hit & Hkeep & _ & Hml & _).
  assert (Hin : ∀ x, x ∈ L ++ R → x < length (heap s)).
  { intros x Hx. by apply (Inv_in_heap _ _ _ HI), list_elem_of_further. }
  assert (Hitems : items (heap s2) (L ++ R) = items (heap s) (L ++ R)).
  { rewrite Hit, <-items_app. apply items_ext. intros x Hx.
    destruct (Hold x (Hin x Hx)) as (? & ? & _). done. }
  assert (Hht : ∀ x, x ∈ L ++ R → ht (heap s2) x = ht (heap s) x).
  { intros x Hx. rewrite (keeps_ht _ _ _ Hkeep). simpl.
    by destruct (Hold x (Hin x Hx)) as (_ & _ & ?). }
  exists s1, s2. split; [done|]. split; [done|].
  split; [by rewrite (display_spec _ _ HI2), (display_spec _ _ HI), Hitems|].
  split; [by rewrite (len_spec _ _ HI2), (len_spec _ _ HI)|].
  split; [|split; [done|]].
  - pose proof (Inv_level_le s s2 _ HI HI2 Hht).
    assert (Hle : level s2 ≤ level s).
    { apply (Inv_level_le s2 s _ HI2 HI). intros x Hx. by rewrite Hht. }
    lia.
  - intros k'. by rewrite (search_assoc _ _ k' HI2), (search_assoc _ _ k' HI), Hitems.
Qed.

Lemma insert_delete_restores_witness :
  ∃ s1 s2, insert (draws 3) demo3 7 (PyInt 7) = Ok s1 ∧
    delete s1 7 = Ok (true, s2) ∧
    display s2 = display demo3 ∧ __len__ s2 = __len__ demo3 ∧
    level s2 = level demo3 ∧ max_level s2 = max_level demo3 ∧
    ∀ k', search s2 k' = search demo3 k'.
Proof.
  apply (insert_delete_restores (draws 3) demo3 7 (PyInt 7) wf_demo3).
  apply absent_demo3_7.
Defined.

(** ** Where the key-not-found failure can come from *)

Lemma nk_Ok {A} (a : A) : no_KeyError (Ok a).
Proof. by intros k. Qed.

Lemma nk_Raise {A} e : (∀ k, e ≠ KeyError k) → no_KeyError (@Raise A e).
Proof. intros He k [= ->]. by apply (He k). Qed.

Lemma nk_bind {A B} (m : result A) (f : A → result B) :
  no_KeyError m → (∀ a, no_KeyError (f a)) → no_KeyError (bind m f).
Proof.
  intros Hm Hf. destruct m as [a|e]; simpl; [apply Hf|].
  intros k [= ->]. by apply (Hm k).
Qed.

Ltac nk_solve :=
  repeat first
    [ apply nk_Ok
    | apply nk_Raise; done
    | apply nk_bind; [|intros ?]
    | progress cbn [bind]
    | case_match
    | assumption ].

Lemma nk_get_node h x : no_KeyError (get_node h x).
Proof. unfold get_node. nk_solve. Qed.

Lemma nk_list_get {A} (l : list A) i : no_KeyError (list_get l i).
Proof. unfold list_get. nk_solve. Qed.

Lemma nk_list_set {A} (l : list A) i a : no_KeyError (list_set l i a).
Proof. unfold list_set. nk_solve. Qed.

Lemma nk_get_forward h x i : no_KeyError (get_forward h x i).
Proof. unfold get_forward. nk_solve; [apply nk_get_node|apply nk_list_get]. Qed.

Lemma nk_set_forward h x i y : no_KeyError (set_forward h x i y).
Proof. unfold set_forward. nk_solve; [apply nk_get_node|apply nk_list_set]. Qed.

Lemma nk_set_value h x v : no_KeyError (set_value h x v).
Proof. unfold set_value. nk_solve. apply nk_get_node. Qed.

Lemma nk_key_lt h y k : no_KeyError (key_lt h y k).
Proof. unfold key_lt. nk_solve. apply nk_get_node. Qed.

Lemma nk_update_forward h upd i : no_KeyError (update_forward h upd i).
Proof.
  unfold update_forward. apply nk_bind; [apply nk_list_get|].
  intros [x|]; [apply nk_get_forward|by apply nk_Raise].
Qed.

Lemma nk_is_key h x k : no_KeyError (is_key h x k).
Proof.
  unfold is_key. destruct x as [y|]; [|apply nk_Ok].
  apply nk_bind; [apply nk_get_node|]. intros nd. apply nk_Ok.
Qed.

Lemma nk_advance h k i : ∀ fuel x, no_KeyError (advance fuel h k i x).
Proof.
  induction fuel as [|fuel IH]; intros x; simpl; [by apply nk_Raise|].
  apply nk_bind; [apply nk_get_forward|]. intros [y|]; [|apply nk_Ok].
  apply nk_bind; [apply nk_key_lt|]. intros [|]; [apply IH|apply nk_Ok].
Qed.

Lemma nk_find_updates_from h k : ∀ i x upd,
  no_KeyError (find_updates_from h k i x upd).
Proof.
  induction i as [|i IH]; intros x upd; simpl;
    (apply nk_bind; [apply nk_advance|]); intros x';
    (apply nk_bind; [apply nk_list_set|]); intros upd';
    [apply nk_Ok|apply IH].
Qed.

Lemma nk_search_from h k : ∀ i x, no_KeyError (search_from h k i x).
Proof.
  induction i as [|i IH]; intros x; simpl;
    (apply nk_bind; [apply nk_advance|]); intros x'; [apply nk_Ok|apply IH].
Qed.

Lemma nk_fill_header hdr : ∀ n i upd, no_KeyError (fill_header n i upd hdr).
Proof.
  induction n as [|n IH]; intros i upd; simpl; [apply nk_Ok|].
  apply nk_bind; [apply nk_list_set|]. intros upd'. apply IH.
Qed.

Lemma nk_splice upd x : ∀ n i h, no_KeyError (splice n i h upd x).
Proof.
  induction n as [|n IH]; intros i h; simpl; [apply nk_Ok|].
  apply nk_bind; [apply nk_update_forward|]. intros nxt.
  apply nk_bind; [apply nk_set_forward|]. intros h1.
  apply nk_bind; [apply nk_list_get|]. intros [y|]; [|by apply nk_Raise].
  apply nk_bind; [apply nk_set_forward|]. intros h2. apply IH.
Qed.

Lemma nk_unlink upd x : ∀ n i h, no_KeyError (unlink n i h upd x).
Proof.
  induction n as [|n IH]; intros i h; simpl; [apply nk_Ok|].
  apply nk_bind; [apply nk_update_forward|]. intros nxt.
  apply nk_bind; [|intros h'; apply IH].
  case_decide; [|apply nk_Ok].
  apply nk_bind; [apply nk_get_forward|]. intros xf.
  apply nk_bind; [apply nk_list_get|]. intros [y|];
    [apply nk_set_forward|by apply nk_Raise].
Qed.

Lemma nk_shrink_level h hdr : ∀ lvl, no_KeyError (shrink_level h hdr lvl).
Proof.
  induction lvl as [|lvl IH]; simpl; [apply nk_Ok|].
  apply nk_bind; [apply nk_get_forward|]. intros [y|]; [apply nk_Ok|apply IH].
Qed.

Lemma nk_count_from h : ∀ fuel x cnt, no_KeyError (count_from fuel h x cnt).
Proof.
  induction fuel as [|fuel IH]; intros [y|] cnt; simpl;
    [by apply nk_Raise|apply nk_Ok| |apply nk_Ok].
  apply nk_bind; [apply nk_get_forward|]. intros nxt. apply IH.
Qed.

Lemma nk_display_from h : ∀ fuel x acc, no_KeyError (display_from fuel h x acc).
Proof.
  induction fuel as [|fuel IH]; intros [y|] acc; simpl;
    [by apply nk_Raise|apply nk_Ok| |apply nk_Ok].
  apply nk_bind; [apply nk_get_node|]. intros n.
  apply nk_bind; [apply nk_list_get|]. intros nxt. apply IH.
Qed.

(** X18: on every state, well-formed or not, [search], [insert],
    [delete], [_find_updates], [in], [len()] and [display] never raise
    the key-not-found failure; when the indexed read or the indexed
    delete raise it, it carries the key they were called with. *)
Theorem KeyError_only_from_keyed_access rnd s k v :
  no_KeyError (search s k) ∧ no_KeyError (insert rnd s k v) ∧
  no_KeyError (delete s k) ∧ no_KeyError (_find_updates s k) ∧
  no_KeyError (__contains__ s k) ∧ no_KeyError (__len__ s) ∧
  no_KeyError (display s) ∧
  (∀ k', __getitem__ s k = Raise (KeyError k') → k' = k) ∧
  (∀ k', __delitem__ s k = Raise (KeyError k') → k' = k).
Proof.
  assert (Hs : no_KeyError (search s k)).
  { unfold search. apply nk_bind; [apply nk_search_from|]. intros x.
    apply nk_bind; [apply nk_get_forward|]. intros x0.
    apply nk_bind; [apply nk_is_key|]. intros [n|]; apply nk_Ok. }
  assert (Hd : no_KeyError (delete s k)).
  { unfold delete. apply nk_bind; [apply nk_find_updates_from|]. intros upd.
    apply nk_bind; [apply nk_update_forward|]. intros x.
    apply nk_bind; [apply nk_is_key|]. intros [n|]; [|apply nk_Ok].
    destruct x as [y|]; [|apply nk_Ok].
    apply nk_bind; [apply nk_unlink|]. intros h'.
    apply nk_bind; [apply nk_shrink_level|]. intros l'. apply nk_Ok. }
  split; [done|]. split; [|split; [done|split; [|split; [|split; [|split; [|split]]]]]].
  - unfold insert. apply nk_bind; [apply nk_find_updates_from|]. intros upd.
    apply nk_bind; [apply nk_update_forward|]. intros x.
    assert (Hnew : no_KeyError
      (do update' <-
         (if level s <? _random_level s rnd
          then fill_header (_random_level s rnd - level s) (level s + 1) upd (header s)
          else Ok upd);
       do h' <- splice (_random_level s rnd + 1) 0
                  (heap s ++ [new_node (_random_level s rnd) (Some k) v])
                  update' (length (heap s));
       Ok (mkSkipList (max_level s) (p s)
             (if level s <? _random_level s rnd
              then _random_level s rnd else level s) (header s) h'))).
    { apply nk_bind; [destruct (_ <? _); [apply nk_fill_header|apply nk_Ok]|].
      intros upd'. apply nk_bind; [apply nk_splice|]. intros h'. apply nk_Ok. }
    apply nk_bind; [apply nk_is_key|]. intros [n|]; [|exact Hnew].
    destruct x as [y|]; [|exact Hnew].
    apply nk_bind; [apply nk_set_value|]. intros h'. apply nk_Ok.
  - apply nk_find_updates_from.
  - unfold __contains__. apply nk_bind; [done|]. intros val. apply nk_Ok.
  - unfold __len__. apply nk_bind; [apply nk_get_forward|]. intros x.
    apply nk_count_from.
  - unfold display. apply nk_bind; [apply nk_get_forward|]. intros x.
    apply nk_display_from.
  - intros k'. unfold __getitem__. destruct (search s k) as [val|e] eqn:E; simpl.
    + destruct (is_None val); [by intros [= ->]|done].
    + intros [= ->]. by destruct (Hs k').
  - intros k'. unfold __delitem__. destruct (delete s k) as [[b s']|e] eqn:E; simpl.
    + destruct b; [done|by intros [= ->]].
    + intros [= ->]. by destruct (Hd k').
Qed.

(** ** The list as a finite map *)

Lemma mid_elem (k k' : Z) (v v' : pyval) (pre post : list (option Z * pyval)) :
  Forall (λ e, e.1 ≠ Some k) pre → Forall (λ e, e.1 ≠ Some k) post →
  (Some k', v') ∈ pre ++ (Some k, v) :: post ↔
    (k' = k ∧ v' = v) ∨ (k' ≠ k ∧ (Some k', v') ∈ pre ++ post).
Proof.
  intros Hpre Hpost. rewrite Forall_forall in Hpre, Hpost.
  rewrite !elem_of_app, elem_of_cons. split.
  - intros [Hin|[[= -> ->]|Hin]].
    + right. split; [|by left]. intros ->. by apply (Hpre _ Hin).
    + by left.
    + right. split; [|by right]. intros ->. by apply (Hpost _ Hin).
  - intros [[-> ->]|[_ [?|?]]]; auto.
Qed.

Lemma insert_items_split rnd s ls k v :
  Inv s ls →
  ∃ s' ls' pre post,
    insert rnd s k v = Ok s' ∧ Inv s' ls' ∧
    items (heap s') ls' = pre ++ (Some k, v) :: post ∧
    Forall (λ e, e.1 ≠ Some k) pre ∧ Forall (λ e, e.1 ≠ Some k) post ∧
    ∀ k' v', k' ≠ k →
      (Some k', v') ∈ items (heap s) ls ↔ (Some k', v') ∈ pre ++ post.
Proof.
  intros HI.
  destruct (Inv_cases s ls k HI) as [(L & y & R & -> & Hy)|(L & R & -> & HL & HR)].
  - destruct (insert_existing_items rnd s L y R k v HI Hy)
      as (s' & Hins & HI' & Hit & _).
    destruct (Inv_around s L y R k HI Hy) as [HL HR].
    exists s', (L ++ y :: R), (items (heap s) L), (items (heap s) R).
    split; [done|]. split; [done|]. split; [done|].
    assert (Hpre := keys_below_ne k _ (items_klt _ _ _ HL)).
    assert (Hpost := keys_above_ne k _ (items_kgt _ _ _ HR)).
    split; [done|]. split; [done|].
    intros k' v' Hne. rewrite items_mid, Hy.
    rewrite (mid_elem k k' (val_of (heap s) y) v') by done. split.
    + by intros [[? _]|[_ ?]].
    + intros Hin. right. done.
  - destruct (insert_new_items rnd s L R k v HI HL HR)
      as (s' & Hins & HI' & Hit & _).
    exists s', (L ++ length (heap s) :: R), (items (heap s) L), (items (heap s) R).
    split; [done|]. split; [done|]. split; [done|].
    split; [by apply keys_below_ne, items_klt|].
    split; [by apply keys_above_ne, items_kgt|].
    intros k' v' _. by rewrite items_app.
Qed.

Lemma insert_map rnd s k v :
  wf s →
  ∃ s', insert rnd s k v = Ok s' ∧ wf s' ∧
    ∀ k' v', stored s' k' v' ↔
      (k' = k ∧ v' = v) ∨ (k' ≠ k ∧ stored s k' v').
Proof.
  intros [ls HI].
  destruct (insert_items_split rnd s ls k v HI)
    as (s' & ls' & pre & post & Hins & HI' & Hit & Hpre & Hpost & Hold).
  exists s'. split; [done|]. split; [by eexists|]. intros k' v'.
  rewrite <-(items_stored s' ls' k' v' HI'), Hit, (mid_elem k k' v v') by done.
  rewrite <-(items_stored s ls k' v' HI). split.
  - intros [?|[Hne Hin]]; [by left|]. right. split; [done|]. by apply Hold.
  - intros [?|[Hne Hin]]; [by left|]. right. split; [done|]. by apply Hold.
Qed.

(** X19: on every well-formed state [insert(k, v)] acts as a map update:
    afterwards [k] is stored with [v] and with nothing else, and any
    other key is stored with a value exactly when it was before. *)
Theorem insert_stored_iff rnd s k v :
  wf s →
  ∃ s', insert rnd s k v = Ok s' ∧
    ∀ k' v', stored s' k' v' ↔
      (k' = k ∧ v' = v) ∨ (k' ≠ k ∧ stored s k' v').
Proof.
  intros Hwf. destruct (insert_map rnd s k v Hwf) as (s' & Hins & _ & Hst).
  by exists s'.
Qed.

Lemma insert_stored_iff_witness :
  ∃ s', insert (draws 1) demo3 10 (PyStr "TEN") = Ok s' ∧
    ∀ k' v', stored s' k' v' ↔
      (k' = 10%Z ∧ v' = PyStr "TEN") ∨ (k' ≠ 10%Z ∧ stored demo3 k' v').
Proof. apply (insert_stored_iff (draws 1) demo3 10 (PyStr "TEN") wf_demo3). Defined.

(** X20: on every well-formed state [delete(k)] acts as a map removal:
    afterwards a key is stored with a value exactly when it is not [k]
    and was stored with that value before. *)
Theorem delete_stored_iff s k :
  wf s →
  ∃ b s', delete s k = Ok (b, s') ∧
    ∀ k' v', stored s' k' v' ↔ k' ≠ k ∧ stored s k' v'.
Proof.
  intros [ls HI].
  destruct (Inv_cases s ls k HI) as [(L & y & R & -> & Hy)|(L & R & -> & HL & HR)].
  - destruct (delete_present_items s L y R k HI Hy)
      as (s' & Hdel & HI' & Hit & _).
    destruct (Inv_around s L y R k HI Hy) as [HL HR].
    assert (Hpre := keys_below_ne k _ (items_klt _ _ _ HL)).
    assert (Hpost := keys_above_ne k _ (items_kgt _ _ _ HR)).
    exists true, s'. split; [done|]. intros k' v'.
    rewrite <-(items_stored s' _ k' v' HI'), <-(items_stored s _ k' v' HI).
    rewrite Hit, items_mid, Hy, (mid_elem k k' (val_of (heap s) y) v') by done.
    split.
    + intros Hin. split; [|right].
      * intros ->. rewrite Forall_forall in Hpre, Hpost.
        apply elem_of_app in Hin as [Hin|Hin];
          [by apply (Hpre _ Hin)|by apply (Hpost _ Hin)].
      * split; [|done]. intros ->. rewrite Forall_forall in Hpre, Hpost.
        apply elem_of_app in Hin as [Hin|Hin];
          [by apply (Hpre _ Hin)|by apply (Hpost _ Hin)].
    + by intros [Hne [[? _]|[_ ?]]].
  - exists false, s. split; [by apply (delete_absent s L R k)|].
    intros k' v'. split; [|by intros [_ ?]].
    intros Hst. split; [|done]. intros ->.
    apply (split_absent s L R k HI HL HR). by exists v'.
Qed.

Lemma delete_stored_iff_witness :
  ∃ b s', delete demo3 5 = Ok (b, s') ∧
    ∀ k' v', stored s' k' v' ↔ k' ≠ 5%Z ∧ stored demo3 k' v'.
Proof. apply (delete_stored_iff demo3 5 wf_demo3). Defined.

(** ** One list for each set of pairs *)

Lemma items_sorted s ls :
  Inv s ls →
  StronglySorted (λ e1 e2 : option Z * pyval,
                    (default 0 e1.1 < default 0 e2.1)%Z) (items (heap s) ls).
Proof.
  intros HI.
  apply (StronglySorted_fmap _ (λ a b, (kz (heap s) a < kz (heap s) b)%Z));
    [done|apply (inv_sorted _ _ HI)].
Qed.

Lemma items_NoDup s ls : Inv s ls → NoDup (items (heap s) ls).
Proof.
  intros HI. apply (NoDup_fmap_1 fst). unfold items.
  rewrite <-list_fmap_compose. apply (Inv_keys_NoDup _ _ HI).
Qed.

Lemma items_keys s ls e :
  Inv s ls → e ∈ items (heap s) ls → ∃ k, e = (Some k, e.2).
Proof.
  intros HI (x & -> & Hx)%list_elem_of_fmap.
  pose proof (inv_nodes _ _ HI) as Hn. rewrite Forall_forall in Hn.
  destruct (Hn x Hx) as [[k Hk] _]. exists k. simpl. by rewrite Hk.
Qed.

Lemma stored_same_display s1 s2 :
  wf s1 → wf s2 →
  (∀ k v, stored s1 k v ↔ stored s2 k v) →
  display s1 = display s2.
Proof.
  intros [l1 H1] [l2 H2] Hsame.
  rewrite (display_spec _ _ H1), (display_spec _ _ H2). f_equal.
  eapply StronglySorted_unique_strong;
    [|by apply items_sorted|by apply items_sorted|].
  - intros e1 e2 _ _ Hlt Hgt. simpl in *. lia.
  - apply NoDup_Permutation; [by apply items_NoDup..|].
    intros e. split; intros Hin.
    + destruct (items_keys _ _ _ H1 Hin) as [k Hk]. rewrite Hk in *.
      by apply (items_stored _ _ _ _ H2), Hsame, (items_stored _ _ _ _ H1).
    + destruct (items_keys _ _ _ H2 Hin) as [k Hk]. rewrite Hk in *.
      by apply (items_stored _ _ _ _ H1), Hsame, (items_stored _ _ _ _ H2).
Qed.

Lemma stored_display s elems k v :
  wf s → display s = Ok elems → stored s k v ↔ (Some k, v) ∈ elems.
Proof.
  intros [ls HI] Hd. rewrite (display_spec _ _ HI) in Hd. injection Hd as <-.
  symmetry. by apply items_stored.
Qed.

Lemma search_of_display s elems k :
  wf s → display s = Ok elems → search s k = Ok (assoc k elems).
Proof.
  intros [ls HI] Hd. rewrite (display_spec _ _ HI) in Hd. injection Hd as <-.
  by apply search_assoc.
Qed.

Lemma len_of_display s elems :
  wf s → display s = Ok elems → __len__ s = Ok (length elems).
Proof.
  intros [ls HI] Hd. rewrite (display_spec _ _ HI) in Hd. injection Hd as <-.
  rewrite (len_spec _ _ HI). unfold items. by rewrite length_fmap.
Qed.

Lemma wf_display s : wf s → ∃ elems, display s = Ok elems.
Proof. intros [ls HI]. eexists. by apply display_spec. Qed.

(** Two states with the same printed pairs answer alike. *)
Lemma same_display_same_answers s1 s2 :
  wf s1 → wf s2 → display s1 = display s2 →
  __len__ s1 = __len__ s2 ∧ ∀ k, search s1 k = search s2 k.
Proof.
  intros Hw1 Hw2 Heq. destruct (wf_display s1 Hw1) as [elems Hd1].
  assert (Hd2 : display s2 = Ok elems) by congruence. split.
  - by rewrite (len_of_display _ _ Hw1 Hd1), (len_of_display _ _ Hw2 Hd2).
  - intros k.
    by rewrite (search_of_display _ _ k Hw1 Hd1), (search_of_display _ _ k Hw2 Hd2).
Qed.

Lemma reachable_demo3b : reachable demo3b.
Proof.
  eapply (reach_insert demo2b (draws 0) 5 (PyStr "val_5")); [|reflexivity].
  eapply (reach_insert demo1b (draws 0) 20 (PyStr "val_20")); [|reflexivity].
  eapply (reach_insert (init 3 (1 # 2)) (draws 1) 15 (PyStr "val_15"));
    [|reflexivity].
  apply reach_init.
Qed.

(** X21: two well-formed states that store the same pairs print the same
    list in [display], whatever the levels of their nodes and the order
    of the calls that built them. *)
Theorem display_canonical s1 s2 :
  wf s1 → wf s2 →
  (∀ k v, stored s1 k v ↔ stored s2 k v) →
  display s1 = display s2.
Proof. apply stored_same_display. Qed.

Lemma display_canonical_witness : display demo3 = display demo3b.
Proof.
  pose proof (reachable_wf _ reachable_demo3b) as Hwf.
  apply (display_canonical demo3 demo3b wf_demo3 Hwf). intros k v.
  rewrite (stored_display demo3 _ k v wf_demo3 eq_refl).
  by rewrite (stored_display demo3b _ k v Hwf eq_refl).
Defined.

(** ** Order of calls and outcome of the draws *)

(** X22: on every well-formed state, two [insert(k, v)] calls that differ
    only in the outcome of the randomness source leave lists that print
    the same pairs, have the same [len()] and answer every [search]
    alike: the level drawn shapes the list, not its contents. *)
Theorem insert_contents_any_draw rnd1 rnd2 s k v :
  wf s →
  ∃ s1 s2, insert rnd1 s k v = Ok s1 ∧ insert rnd2 s k v = Ok s2 ∧
    display s1 = display s2 ∧ __len__ s1 = __len__ s2 ∧
    ∀ k', search s1 k' = search s2 k'.
Proof.
  intros Hwf.
  destruct (insert_map rnd1 s k v Hwf) as (s1 & Hi1 & Hw1 & Hst1).
  destruct (insert_map rnd2 s k v Hwf) as (s2 & Hi2 & Hw2 & Hst2).
  exists s1, s2. split; [done|]. split; [done|].
  assert (Hd : display s1 = display s2).
  { apply stored_same_display; [done..|]. intros k' v'. by rewrite Hst1, Hst2. }
  split; [done|]. by apply same_display_same_answers.
Qed.

Lemma insert_contents_any_draw_witness :
  ∃ s1 s2, insert (draws 0) demo3 10 (PyStr "TEN") = Ok s1 ∧
    insert (draws 3) demo3 10 (PyStr "TEN") = Ok s2 ∧
    display s1 = display s2 ∧ __len__ s1 = __len__ s2 ∧
    ∀ k', search s1 k' = search s2 k'.
Proof.
  apply (insert_contents_any_draw (draws 0) (draws 3) demo3 10 (PyStr "TEN")
           wf_demo3).
Defined.

(** X23: on every well-formed state, inserting two distinct keys in
    either order, under any outcomes of the randomness source, leaves
    lists that print the same pairs, have the same [len()] and answer
    every [search] alike. *)
Theorem insert_commute r1 r2 r3 r4 s k1 v1 k2 v2 :
  wf s → k1 ≠ k2 →
  ∃ a ab b ba,
    insert r1 s k1 v1 = Ok a ∧ insert r2 a k2 v2 = Ok ab ∧
    insert r3 s k2 v2 = Ok b ∧ insert r4 b k1 v1 = Ok ba ∧
    display ab = display ba ∧ __len__ ab = __len__ ba ∧
    ∀ k, search ab k = search ba k.
Proof.
  intros Hwf Hne.
  destruct (insert_map r1 s k1 v1 Hwf) as (a & Ha & Hwa & Hsa).
  destruct (insert_map r2 a k2 v2 Hwa) as (ab & Hab & Hwab & Hsab).
  destruct (insert_map r3 s k2 v2 Hwf) as (b & Hb & Hwb & Hsb).
  destruct (insert_map r4 b k1 v1 Hwb) as (ba & Hba & Hwba & Hsba).
  exists a, ab, b, ba. repeat (split; [done|]).
  assert (Hd : display ab = display ba).
  { apply stored_same_display; [done..|]. intros k v.
    rewrite Hsab, Hsba, Hsa, Hsb. split.
    - intros [[-> ->]|[? [[-> ->]|[? ?]]]]; [right|left|right]; auto.
    - intros [[-> ->]|[? [[-> ->]|[? ?]]]]; [right|left|right]; auto. }
  split; [done|]. by apply same_display_same_answers.
Qed.

Lemma insert_commute_witness :
  ∃ a ab b ba,
    insert (draws 1) demo3 7 (PyInt 7) = Ok a ∧
    insert (draws 0) a 30 (PyInt 30) = Ok ab ∧
    insert (draws 2) demo3 30 (PyInt 30) = Ok b ∧
    insert (draws 3) b 7 (PyInt 7) = Ok ba ∧
    display ab = display ba ∧ __len__ ab = __len__ ba ∧
    ∀ k, search ab k = search ba k.
Proof.
  apply (insert_commute (draws 1) (draws 0) (draws 2) (draws 3) demo3
           7 (PyInt 7) 30 (PyInt 30) wf_demo3).
  done.
Defined.
